(** * DiOS libk hashmap: a shallow embedding of [include/libk/hashmap.h]

    The header generates, for a key type and a value type, a chained hash
    table: an array of [capacity] bucket pointers, each either NULL or a
    vector of entries, together with [add], [get] and [delete].  The
    embedding below follows the macro [GENERATE_HASHMAP] line by line.  The
    table is passed explicitly (the C code receives a pointer to it), the
    calls a function makes to its collaborators are recorded in a trace of
    events, and the 32-bit fields are integers with their wrap-around
    written out. *)

From Stdlib Require Import ZArith QArith Lia List.
From stdpp Require Import base list.

Local Open Scope Z_scope.

(** ** Constants of the header *)

Definition DEFAULT_BUCKET_SIZE : Z := 127.

(** [#define LOAD_FACTOR 0.75].  The guard of [add] multiplies a [uint32_t]
    by this constant in double precision; every product of a 32-bit integer
    with 0.75 is exact in a double, so rational arithmetic gives the same
    comparison. *)
Definition LOAD_FACTOR : Q := (75 # 100)%Q.

(** Range of [uint32_t]. *)
Definition UINT32_MODULUS : Z := 2 ^ 32.

(** ** The capability functions of a key type and a value type

    [GENERATE_HASHMAP(key_type, value_type)] refers to [key_type_hash],
    [key_type_equals], [copy_key_type] and [copy_value_type] by name; here
    they are the methods of a class.  The destructors [delete_key_type] and
    [delete_value_type] return nothing: a call to one of them is an event of
    the trace. *)
Class Capabilities (key_type value_type : Type) := {
  key_type_hash : key_type -> Z;
  key_type_equals : key_type -> key_type -> bool;
  copy_key_type : key_type -> key_type;
  copy_value_type : value_type -> value_type
}.

(** What the table needs from the capabilities of a type with deep-copy
    semantics: a copy hashes like, and compares like, its original. *)
Class CapabilityLaws (key_type value_type : Type)
    `{Capabilities key_type value_type} : Prop := {
  hash_copy : forall k, key_type_hash (copy_key_type k) = key_type_hash k;
  equals_copy : forall k1 k2,
    key_type_equals k1 (copy_key_type k2) = key_type_equals k1 k2;
  equals_refl : forall k, key_type_equals k k = true
}.

Section GENERATE_HASHMAP.

Context {key_type value_type : Type}.
Context `{Cap : Capabilities key_type value_type}.

(** [struct key_type##_to_##value_type##_entry]. *)
Record entry : Type := Entry {
  key : key_type;
  value : value_type
}.

(** Modelled from the spec: the bucket sequence generated by
    [GENERATE_VECTOR] of [libk/vector.h], a header this one includes and
    whose text is missing.  A sequence is created empty, [push] appends,
    [get] is a bounds-checked read, and deleting a sequence releases its
    storage without touching the entries. *)
Definition entry_vector : Type := list entry.

Definition new_entry_vector : entry_vector := [].

Definition push (vec : entry_vector) (e : entry) : entry_vector := vec ++ [e].

Definition vector_size (vec : entry_vector) : nat := length vec.

Definition vector_get (vec : entry_vector) (i : nat) : option entry := vec !! i.

(** [struct key_type##_to_##value_type##_hashmap]: [size] and [capacity]
    are [uint32_t]; a slot of [buckets] is [None] for a NULL pointer.  The
    function pointers [add], [get] and [delete] always hold the three
    generated functions and are left out, as is [entry_size]. *)
Record hashmap : Type := Hashmap {
  size : Z;
  capacity : Z;
  buckets : list (option entry_vector)
}.

(** Calls to collaborators, in the order in which they happen. *)
Inductive event : Type :=
  | call_hashmap_resize
  | call_new_entry_vector
  | call_copy_key (k : key_type)
  | call_copy_value (v : value_type)
  | call_push (bucket : nat) (e : entry)
  | call_delete_key (k : key_type)
  | call_delete_value (v : value_type)
  | call_delete_entry_vector (vec : entry_vector)
  | call_kfree_buckets
  | call_kfree_hashmap.

(** [copy_##key_type##_to_##value_type##_entry]. *)
Definition copy_key_type_to_value_type_entry (to_copy : entry) : entry :=
  {| key := copy_key_type (key to_copy);
     value := copy_value_type (value to_copy) |}.

(** [delete_##key_type##_to_##value_type##_entry]: destroys the key, then
    the value. *)
Definition delete_key_type_to_value_type_entry (to_delete : entry)
  : list event :=
  [call_delete_key (key to_delete); call_delete_value (value to_delete)].

(** [hash % hashmap->capacity], as an index into [buckets]. *)
Definition bucket_index (cap : Z) (hash : Z) : nat := Z.to_nat (hash mod cap).

(** The entries of slot [b]; none for a NULL slot. *)
Definition bucket_contents (bs : list (option entry_vector)) (b : nat)
  : entry_vector :=
  match bs !! b with
  | Some (Some vec) => vec
  | _ => []
  end.

(** Modelled from the spec: [new_hashmap], which the header declares and
    whose body is missing.  It allocates an all-absent bucket array of the
    given capacity; the table starts with size zero.  The header declares it
    with the byte sizes of the table and of an entry, which have no
    counterpart here; the capacity is a parameter, as in the spec's
    [new(initial_capacity = 127)]. *)
Definition new_hashmap (initial_capacity : Z) : hashmap :=
  {| size := 0;
     capacity := initial_capacity;
     buckets := replicate (Z.to_nat initial_capacity) None |}.

(** Places one entry in the bucket its own key hashes to. *)
Definition rehash_entry (cap : Z) (bs : list (option entry_vector))
    (e : entry) : list (option entry_vector) :=
  let bucket := bucket_index cap (key_type_hash (key e)) in
  <[bucket := Some (push (bucket_contents bs bucket) e)]> bs.

(** Every entry of a bucket array, bucket by bucket. *)
Definition all_entries (bs : list (option entry_vector)) : list entry :=
  concat (map (fun slot => from_option id [] slot) bs).

(** Modelled from the spec: [hashmap_resize], which the header declares and
    whose body is missing.  The capacity is increased, by the doubling the
    spec gives as its example; every entry of every old bucket is hashed
    again against the new capacity and placed in a new bucket array, and
    [size] is kept. *)
Definition hashmap_resize (h : hashmap) : hashmap :=
  let new_capacity := 2 * capacity h in
  {| size := size h;
     capacity := new_capacity;
     buckets := foldl (rehash_entry new_capacity)
                      (replicate (Z.to_nat new_capacity) None)
                      (all_entries (buckets h)) |}.

(** The guard of [add]: [hashmap->size > hashmap->capacity * LOAD_FACTOR]. *)
Definition exceeds_load (h : hashmap) : bool :=
  negb (Qle_bool (inject_Z (size h)) (inject_Z (capacity h) * LOAD_FACTOR)).

(** [add_##key_type##_to_##value_type##_hashmap].  The C code indexes
    [buckets] without a check; on a table whose bucket array has [capacity]
    slots, [capacity] positive, the index is in range (lemma
    [bucket_index_lt]) and the branches below for a slot outside the array
    are never taken. *)
Definition add_key_type_to_value_type_hashmap (h : hashmap) (k : key_type)
    (v : value_type) : hashmap * list event :=
  let '(h1, t1) :=
    if exceeds_load h then (hashmap_resize h, [call_hashmap_resize])
    else (h, []) in
  let hash := key_type_hash k in
  let bucket := bucket_index (capacity h1) hash in
  let '(bs1, t2) :=
    match buckets h1 !! bucket with
    | Some None =>
        (<[bucket := Some new_entry_vector]> (buckets h1),
         [call_new_entry_vector])
    | _ => (buckets h1, [])
    end in
  let e := {| key := copy_key_type k; value := copy_value_type v |} in
  let bs2 :=
    match bs1 !! bucket with
    | Some (Some vec) => <[bucket := Some (push vec e)]> bs1
    | _ => bs1
    end in
  ({| size := (size h1 + 1) mod UINT32_MODULUS;
      capacity := capacity h1;
      buckets := bs2 |},
   t1 ++ t2 ++ [call_copy_key k; call_copy_value v; call_push bucket e]).

(** The loop of [get]: the indices still to visit, the caller's output
    location, and the table are threaded through the iterations.  An index
    the vector rejects is skipped ([continue]). *)
Fixpoint get_scan (k : key_type) (bucket : entry_vector) (indices : list nat)
    (output : value_type) (h : hashmap) : bool * value_type * hashmap :=
  match indices with
  | [] => (false, output, h)
  | i :: rest =>
      match vector_get bucket i with
      | None => get_scan k bucket rest output h
      | Some e =>
          if key_type_equals k (key e) then (true, value e, h)
          else get_scan k bucket rest output h
      end
  end.

(** [get_##key_type##_to_##value_type##_hashmap]: the result, the content
    of the output location afterwards, and the table afterwards. *)
Definition get_key_type_to_value_type_hashmap (h : hashmap) (k : key_type)
    (output : value_type) : bool * value_type * hashmap :=
  let hash := key_type_hash k in
  match buckets h !! bucket_index (capacity h) hash with
  | Some (Some bucket) =>
      get_scan k bucket (seq 0 (vector_size bucket)) output h
  | _ => (false, output, h)
  end.

(** [delete_##key_type##_to_##value_type##_hashmap]: the table is gone
    afterwards, what remains is the trace of the calls made. *)
Definition delete_key_type_to_value_type_hashmap (h : hashmap) : list event :=
  flat_map
    (fun i =>
       match buckets h !! i with
       | Some (Some vec) => [call_delete_entry_vector vec]
       | _ => []
       end)
    (seq 0 (Z.to_nat (capacity h)))
  ++ [call_kfree_buckets; call_kfree_hashmap].

(** [new_##key_type##_to_##value_type##_hashmap]. *)
Definition new_key_type_to_value_type_hashmap : hashmap :=
  new_hashmap DEFAULT_BUCKET_SIZE.

End GENERATE_HASHMAP.

Arguments entry : clear implicits.
Arguments entry_vector : clear implicits.
Arguments hashmap : clear implicits.
Arguments event : clear implicits.

(** A sequence of [add] calls, in order; the traces are dropped. *)
Definition add_all {key_type value_type : Type}
    `{Capabilities key_type value_type}
    (h : hashmap key_type value_type) (l : list (key_type * value_type))
  : hashmap key_type value_type :=
  foldl (fun h kv => fst (add_key_type_to_value_type_hashmap h kv.1 kv.2)) h l.

(** The entry [add] stores for a key and a value. *)
Definition stored {key_type value_type : Type}
    `{Capabilities key_type value_type} (kv : key_type * value_type)
  : entry key_type value_type :=
  {| key := copy_key_type kv.1; value := copy_value_type kv.2 |}.

(** Number of entries held by the present buckets. *)
Definition entry_count {key_type value_type : Type}
    (bs : list (option (entry_vector key_type value_type))) : nat :=
  foldr (fun slot n =>
           match slot with
           | Some vec => (vector_size vec + n)%nat
           | None => n
           end) 0%nat bs.

(** Classification of the events of a trace. *)
Definition is_resize_call {key_type value_type : Type}
    (ev : event key_type value_type) : bool :=
  match ev with
  | call_hashmap_resize => true
  | _ => false
  end.

Definition is_destroy_call {key_type value_type : Type}
    (ev : event key_type value_type) : bool :=
  match ev with
  | call_delete_key _ | call_delete_value _ => true
  | _ => false
  end.

Definition is_copy_call {key_type value_type : Type}
    (ev : event key_type value_type) : bool :=
  match ev with
  | call_copy_key _ | call_copy_value _ => true
  | _ => false
  end.

Definition is_push_call {key_type value_type : Type}
    (ev : event key_type value_type) : bool :=
  match ev with
  | call_push _ _ => true
  | _ => false
  end.

(** Number of events of a trace that satisfy a classification. *)
Definition calls {key_type value_type : Type}
    (which : event key_type value_type -> bool)
    (t : list (event key_type value_type)) : nat :=
  length (List.filter which t).

(** ** The primitives of [libk/types.h] and the tables over [int]

    [GENERATE_FNS_FOR_PRIMITIVE(int)] of [libk/types.h], read on the
    integers the pointers refer to: the hash is the integer converted to
    [uint32_t], equality is [==], a copy is the integer itself. *)
Definition int_hash (i : Z) : Z := i mod UINT32_MODULUS.
Definition int_equals (i1 i2 : Z) : bool := i1 =? i2.
Definition copy_int (i : Z) : Z := i.

(** Integers with capability functions in the calling convention of the
    macro: [copy], [equals] and [delete] receive the key or the value
    itself, [hash] its address.  These are the functions above applied to
    the integers themselves.  The instance serves to exhibit the theorems on
    concrete tables; it is not what [GENERATE_HASHMAP(int, int)] runs, for
    which see [int_as_called]. *)
#[export] Instance int_by_value : Capabilities Z Z := {|
  key_type_hash := int_hash;
  key_type_equals := int_equals;
  copy_key_type := copy_int;
  copy_value_type := copy_int
|}.

(** [new_int_to_int_hashmap], generated by [GENERATE_HASHMAP(int, int)]. *)
Definition new_int_to_int_hashmap : hashmap Z Z :=
  new_key_type_to_value_type_hashmap.

(** [GENERATE_HASHMAP(int, int)] as it calls the functions of
    [libk/types.h], which take pointers.  [int_hash] is passed the address
    of the key, so the hash is that of the key.  [copy_int], [int_equals]
    and [delete_int] are passed the key, or the value, where they expect its
    address: [copy_int] then stores the int it reads at the address the key
    denotes, and [int_equals] compares the ints read at the addresses its
    two arguments denote.  [memory] gives the int read at an address.  A
    read of an address that is not mapped faults; that is outside the
    embedding, and the runs below read only addresses that their memory
    lists. *)
Definition int_as_called (memory : Z -> Z) : Capabilities Z Z := {|
  key_type_hash := int_hash;
  key_type_equals := fun k1 k2 => int_equals (memory k1) (memory k2);
  copy_key_type := fun k => copy_int (memory k);
  copy_value_type := fun v => copy_int (memory v)
|}.

(** [add] and [get] as [GENERATE_HASHMAP(int, int)] generates them, over a
    memory. *)
Definition add_int_to_int_hashmap (memory : Z -> Z) (h : hashmap Z Z)
    (k v : Z) : hashmap Z Z * list (event Z Z) :=
  @add_key_type_to_value_type_hashmap Z Z (int_as_called memory) h k v.

Definition get_int_to_int_hashmap (memory : Z -> Z) (h : hashmap Z Z)
    (k output : Z) : bool * Z * hashmap Z Z :=
  @get_key_type_to_value_type_hashmap Z Z (int_as_called memory) h k output.

(** A memory whose ints are not their own addresses: the int at 65536 is
    65552, the ints at 65540 and 65544 are 10 and 20, the ints at 65552 and
    66044 are both 7.  The five addresses lie four bytes apart or more. *)
Definition stray_memory (a : Z) : Z :=
  if a =? 65536 then 65552
  else if a =? 65540 then 10
  else if a =? 65544 then 20
  else if a =? 65552 then 7
  else if a =? 66044 then 7
  else 0.

(** A memory in which the ints at 65536, 65540, 65544 and 65548 each hold
    their own address, so that on these four a copy gives back the int that
    was passed. *)
Definition self_memory (a : Z) : Z :=
  if (a =? 65536) || (a =? 65540) || (a =? 65544) || (a =? 65548) then a
  else 0.

(** ** Notions used to state the properties *)

Section Notions.

Context {key_type value_type : Type}.
Context `{Cap : Capabilities key_type value_type}.

(** Appends [e] to slot [b], creating the vector if the slot is NULL. *)
Definition place_entry (b : nat) (e : entry key_type value_type)
    (bs : list (option (entry_vector key_type value_type)))
  : list (option (entry_vector key_type value_type)) :=
  <[b := Some (push (bucket_contents bs b) e)]> bs.

(** The table [add] works on once its guard has been passed. *)
Definition after_guard (h : hashmap key_type value_type)
  : hashmap key_type value_type :=
  if exceeds_load h then hashmap_resize h else h.

(** The key of [e] hashes to slot [b] of a table of capacity [cap]. *)
Definition in_bucket (cap : Z) (b : nat) (e : entry key_type value_type)
  : Prop :=
  bucket_index cap (key_type_hash (key e)) = b.

#[export] Instance in_bucket_dec cap b e : Decision (in_bucket cap b e).
Proof. unfold in_bucket. apply _. Defined.

(** The test of the loop of [get]. *)
Definition matches (k : key_type) (e : entry key_type value_type) : bool :=
  key_type_equals k (key e).

(** The bucket array has [capacity] slots, and there is at least one. *)
Definition well_formed (h : hashmap key_type value_type) : Prop :=
  0 < capacity h /\ length (buckets h) = Z.to_nat (capacity h).

(** [h] holds exactly the entries [l], each in the bucket of its key and,
    within a bucket, in the order of [l]. *)
Definition represents (h : hashmap key_type value_type)
    (l : list (entry key_type value_type)) : Prop :=
  well_formed h /\
  size h = Z.of_nat (length l) mod UINT32_MODULUS /\
  forall b, bucket_contents (buckets h) b = filter (in_bucket (capacity h) b) l.

(** [size] counts the stored entries, up to the range of [uint32_t]. *)
Definition counted (h : hashmap key_type value_type) : Prop :=
  well_formed h /\
  size h = Z.of_nat (entry_count (buckets h)) mod UINT32_MODULUS.

(** The tables a client can hold: created with a positive capacity, then
    used through [add] and [get]. *)
Inductive live : hashmap key_type value_type -> Prop :=
  | live_new initial_capacity :
      0 < initial_capacity -> live (new_hashmap initial_capacity)
  | live_add h k v :
      live h -> live (add_key_type_to_value_type_hashmap h k v).1
  | live_get h k output :
      live h -> live (get_key_type_to_value_type_hashmap h k output).2.

End Notions.

(** How one [add] moves the pair of [size] and [capacity]. *)
Definition add_dimensions (dims : Z * Z) : Z * Z :=
  let '(sz, cap) := dims in
  let cap1 :=
    if negb (Qle_bool (inject_Z sz) (inject_Z cap * LOAD_FACTOR))
    then 2 * cap else cap in
  ((sz + 1) mod UINT32_MODULUS, cap1).

(** ** Further notions: histories, traces and the shape of the bucket array *)

(** Keys that compare equal hash alike, so that a key is looked up in the
    bucket in which an equal key was stored. *)
Class HashRespectsEquals (key_type value_type : Type)
    `{Capabilities key_type value_type} : Prop :=
  equals_hash : forall k1 k2,
    key_type_equals k1 k2 = true -> key_type_hash k1 = key_type_hash k2.

Section MoreNotions.

Context {key_type value_type : Type}.
Context `{Cap : Capabilities key_type value_type}.

(** A sequence of [add] calls, in order, with the traces one after the
    other. *)
Fixpoint add_all_traced (h : hashmap key_type value_type)
    (l : list (key_type * value_type))
  : hashmap key_type value_type * list (event key_type value_type) :=
  match l with
  | [] => (h, [])
  | kv :: rest =>
      let '(h1, t1) := add_key_type_to_value_type_hashmap h kv.1 kv.2 in
      let '(h2, t2) := add_all_traced h1 rest in
      (h2, t1 ++ t2)
  end.

(** The first pair of a sequence of [add] calls whose key the queried key
    equals. *)
Definition first_added (k : key_type) (l : list (key_type * value_type))
  : option (key_type * value_type) :=
  find (fun kv => key_type_equals k kv.1) l.

(** The vectors the non-NULL slots point to, in slot order. *)
Definition present_vectors
    (bs : list (option (entry_vector key_type value_type)))
  : list (entry_vector key_type value_type) :=
  flat_map (fun slot => match slot with
                        | Some vec => [vec]
                        | None => []
                        end) bs.

(** No slot points to a vector without entries. *)
Definition no_empty_vector
    (bs : list (option (entry_vector key_type value_type))) : Prop :=
  forall b vec, bs !! b = Some (Some vec) -> vec <> [].

(** Allocations and releases of bucket vectors in a trace. *)
Definition is_new_vector_call (ev : event key_type value_type) : bool :=
  match ev with
  | call_new_entry_vector => true
  | _ => false
  end.

Definition is_delete_vector_call (ev : event key_type value_type) : bool :=
  match ev with
  | call_delete_entry_vector _ => true
  | _ => false
  end.

End MoreNotions.

(** * Proofs *)

#[export] Instance int_by_value_laws : CapabilityLaws Z Z.
Proof.
  split; simpl; unfold copy_int, int_equals; intros; auto using Z.eqb_refl.
Qed.

(** * Properties *)

Section Engine.

Context {key_type value_type : Type}.
Context `{Cap : Capabilities key_type value_type}.

Implicit Types (h : hashmap key_type value_type) (k : key_type)
  (v : value_type) (e : entry key_type value_type)
  (bs : list (option (entry_vector key_type value_type)))
  (t : list (event key_type value_type)).

(** *** The growth guard *)

Lemma exceeds_load_Qlt h :
  exceeds_load h = true <->
  (inject_Z (capacity h) * LOAD_FACTOR < inject_Z (size h))%Q.
Proof.
  unfold exceeds_load. rewrite negb_true_iff.
  split.
  - intros Hle. apply Qnot_le_lt. intros Hq.
    apply Qle_bool_iff in Hq. congruence.
  - intros Hlt. destruct (Qle_bool _ _) eqn:Hb; [|reflexivity].
    apply Qle_bool_iff in Hb. exfalso. exact (Qlt_not_le _ _ Hlt Hb).
Qed.

Lemma exceeds_load_Z h :
  exceeds_load h = true <-> 75 * capacity h < 100 * size h.
Proof.
  rewrite exceeds_load_Qlt.
  unfold Qlt, LOAD_FACTOR, Qmult, inject_Z. simpl. lia.
Qed.

(** *** Size *)

Lemma hashmap_resize_size h : size (hashmap_resize h) = size h.
Proof. reflexivity. Qed.

Lemma hashmap_resize_capacity h :
  capacity (hashmap_resize h) = 2 * capacity h.
Proof. reflexivity. Qed.

Lemma add_size h k v :
  size (add_key_type_to_value_type_hashmap h k v).1 =
  (size h + 1) mod UINT32_MODULUS.
Proof.
  unfold add_key_type_to_value_type_hashmap.
  destruct (exceeds_load h); simpl;
    repeat (match goal with |- context [match ?x with _ => _ end] =>
              destruct x end; simpl); reflexivity.
Qed.

Lemma add_capacity h k v :
  capacity (add_key_type_to_value_type_hashmap h k v).1 =
  if exceeds_load h then 2 * capacity h else capacity h.
Proof.
  unfold add_key_type_to_value_type_hashmap.
  destruct (exceeds_load h); simpl;
    repeat (match goal with |- context [match ?x with _ => _ end] =>
              destruct x end; simpl); reflexivity.
Qed.

Lemma add_trace h k v :
  exists b e new_vector,
    (add_key_type_to_value_type_hashmap h k v).2 =
    (if exceeds_load h then [call_hashmap_resize] else [])
    ++ (if new_vector : bool then [call_new_entry_vector] else [])
    ++ [call_copy_key k; call_copy_value v; call_push b e].
Proof.
  unfold add_key_type_to_value_type_hashmap.
  destruct (exceeds_load h); simpl.
  - destruct (_ !! _) as [[?|]|]; eexists; eexists;
      [exists false | exists true | exists false]; reflexivity.
  - destruct (_ !! _) as [[?|]|]; eexists; eexists;
      [exists false | exists true | exists false]; reflexivity.
Qed.

(** *** Bucket arrays *)

Lemma bucket_index_lt cap x :
  0 < cap -> (bucket_index cap x < Z.to_nat cap)%nat.
Proof.
  intros Hc. unfold bucket_index.
  pose proof (Z.mod_pos_bound x cap Hc). lia.
Qed.

Lemma rehash_entry_place cap bs e :
  rehash_entry cap bs e =
  place_entry (bucket_index cap (key_type_hash (key e))) e bs.
Proof. reflexivity. Qed.

Lemma length_place_entry b e bs : length (place_entry b e bs) = length bs.
Proof. unfold place_entry. apply length_insert. Qed.

Lemma bucket_contents_place_eq b e bs :
  (b < length bs)%nat ->
  bucket_contents (place_entry b e bs) b = bucket_contents bs b ++ [e].
Proof.
  intros Hb. unfold place_entry.
  unfold bucket_contents at 1. rewrite list_lookup_insert_eq by exact Hb.
  reflexivity.
Qed.

Lemma bucket_contents_place_ne b b' e bs :
  b <> b' ->
  bucket_contents (place_entry b e bs) b' = bucket_contents bs b'.
Proof.
  intros Hb. unfold place_entry, bucket_contents.
  rewrite list_lookup_insert_ne by exact Hb. reflexivity.
Qed.

Lemma bucket_contents_ge bs b :
  (length bs <= b)%nat -> bucket_contents bs b = [].
Proof.
  intros Hb. unfold bucket_contents.
  rewrite (lookup_ge_None_2 bs b) by exact Hb. reflexivity.
Qed.

Lemma bucket_contents_replicate n b :
  bucket_contents (replicate n (@None (entry_vector key_type value_type))) b
  = [].
Proof.
  unfold bucket_contents.
  destruct (replicate n None !! b) as [slot|] eqn:Hl; [|reflexivity].
  apply lookup_replicate in Hl as [-> _]. reflexivity.
Qed.

(** What [add] does to the bucket array, in one step. *)
Lemma add_buckets h k v :
  let h1 := after_guard h in
  buckets (add_key_type_to_value_type_hashmap h k v).1 =
  place_entry (bucket_index (capacity h1) (key_type_hash k)) (stored (k, v))
              (buckets h1).
Proof.
  unfold add_key_type_to_value_type_hashmap, after_guard.
  destruct (exceeds_load h);
    cbn -[hashmap_resize place_entry bucket_index stored];
    [generalize (hashmap_resize h) | generalize h];
    intros h1; unfold place_entry, bucket_contents;
    destruct (buckets h1 !! _) as [[vec|]|] eqn:Hl; cbn [fst buckets].
  all: try (rewrite Hl; reflexivity).
  all: try (rewrite list_lookup_insert_eq by (eapply lookup_lt_Some; exact Hl);
            rewrite list_insert_insert_eq; reflexivity).
  all: rewrite Hl; symmetry; apply list_insert_ge, lookup_ge_None; exact Hl.
Qed.

(** The three fields after [add], from the table past the guard. *)
Lemma add_result h k v :
  let h' := (add_key_type_to_value_type_hashmap h k v).1 in
  capacity h' = capacity (after_guard h) /\
  size h' = (size (after_guard h) + 1) mod UINT32_MODULUS /\
  buckets h' =
  place_entry (bucket_index (capacity (after_guard h)) (key_type_hash k))
              (stored (k, v)) (buckets (after_guard h)).
Proof.
  pose proof (add_buckets h k v) as Hb. simpl in *.
  rewrite add_capacity, add_size. unfold after_guard in *.
  destruct (exceeds_load h); auto.
Qed.

(** *** Splitting a list by bucket and putting it together again *)

Lemma filter_singleton {A} (P : A -> Prop) `{forall x, Decision (P x)} (x : A) :
  filter P [x] = if decide (P x) then [x] else [].
Proof. rewrite filter_cons, filter_nil. reflexivity. Qed.

Lemma filter_in_class {A} (P : A -> Prop) `{forall x, Decision (P x)}
    (Q : nat -> A -> Prop) `{forall i x, Decision (Q i x)}
    (b0 i : nat) (l : list A) :
  (forall i j x, Q i x -> Q j x -> i = j) ->
  (forall x, P x -> Q b0 x) ->
  filter P (filter (Q i) l) = if decide (i = b0) then filter P l else [].
Proof.
  intros Hfun Hclass. induction l as [|x l IH].
  - destruct (decide (i = b0)); reflexivity.
  - rewrite !filter_cons.
    destruct (decide (Q i x)) as [Hi|Hi].
    + rewrite filter_cons, IH.
      destruct (decide (P x)) as [HP|HP], (decide (i = b0)) as [Hb|Hb];
        try reflexivity.
      exfalso. apply Hb. eauto.
    + rewrite IH.
      destruct (decide (P x)) as [HP|HP], (decide (i = b0)) as [Hb|Hb];
        try reflexivity.
      exfalso. apply Hi. rewrite Hb. auto.
Qed.

Lemma filter_classes {A} (P : A -> Prop) `{forall x, Decision (P x)}
    (Q : nat -> A -> Prop) `{forall i x, Decision (Q i x)}
    (b0 n : nat) (l : list A) :
  (forall i j x, Q i x -> Q j x -> i = j) ->
  (forall x, P x -> Q b0 x) ->
  filter P (concat (map (fun i => filter (Q i) l) (seq 0 n))) =
  if decide (b0 < n)%nat then filter P l else [].
Proof.
  intros Hfun Hclass. induction n as [|n IH].
  - reflexivity.
  - rewrite seq_S, map_app, concat_app, filter_app, IH. simpl.
    rewrite app_nil_r, (filter_in_class P Q b0 n l Hfun Hclass).
    destruct (decide (b0 < n)%nat), (decide (n = b0)),
      (decide (b0 < S n)%nat); try lia; try reflexivity.
    apply app_nil_r.
Qed.

Lemma all_entries_contents bs :
  all_entries bs = concat (map (bucket_contents bs) (seq 0 (length bs))).
Proof.
  unfold all_entries. induction bs as [|slot bs IH].
  - reflexivity.
  - simpl. rewrite <- seq_shift, map_map, IH.
    destruct slot; reflexivity.
Qed.

Lemma in_bucket_double cap b e :
  0 < cap ->
  in_bucket (2 * cap) b e ->
  bucket_index cap (key_type_hash (key e)) = bucket_index cap (Z.of_nat b).
Proof.
  unfold in_bucket, bucket_index. intros Hc Hb.
  set (x := key_type_hash (key e)) in *.
  assert (H2 : 0 <= x mod (2 * cap) < 2 * cap) by (apply Z.mod_pos_bound; lia).
  f_equal. rewrite <- Hb, Z2Nat.id by lia.
  rewrite (Z.mul_comm 2 cap), Z.rem_mul_r by lia.
  rewrite (Z.mul_comm cap), Z_mod_plus_full, Z.mod_mod by lia.
  reflexivity.
Qed.

(** *** The representation invariant *)

Lemma represents_new c : 0 < c -> represents (new_hashmap c) [].
Proof.
  intros Hc. repeat split; simpl; try lia.
  - apply length_replicate.
  - intros b. apply bucket_contents_replicate.
Qed.

Lemma place_entry_contents cap bs l e :
  0 < cap -> length bs = Z.to_nat cap ->
  (forall b, bucket_contents bs b = filter (in_bucket cap b) l) ->
  forall b,
    bucket_contents
      (place_entry (bucket_index cap (key_type_hash (key e))) e bs) b =
    filter (in_bucket cap b) (l ++ [e]).
Proof.
  intros Hc Hlen Hbs b.
  rewrite filter_app, filter_singleton.
  destruct (decide (in_bucket cap b e)) as [Hin|Hin].
  - unfold in_bucket in Hin. rewrite Hin.
    rewrite bucket_contents_place_eq, Hbs; [reflexivity|].
    rewrite Hlen, <- Hin. apply bucket_index_lt, Hc.
  - rewrite bucket_contents_place_ne, Hbs by exact Hin.
    symmetry. apply app_nil_r.
Qed.

Lemma foldl_rehash_contents cap es : forall bs l,
  0 < cap -> length bs = Z.to_nat cap ->
  (forall b, bucket_contents bs b = filter (in_bucket cap b) l) ->
  length (foldl (rehash_entry cap) bs es) = Z.to_nat cap /\
  forall b, bucket_contents (foldl (rehash_entry cap) bs es) b =
            filter (in_bucket cap b) (l ++ es).
Proof.
  induction es as [|e es IH]; intros bs l Hc Hlen Hbs.
  - simpl. rewrite app_nil_r. auto.
  - simpl. rewrite rehash_entry_place.
    destruct (IH (place_entry (bucket_index cap (key_type_hash (key e))) e bs)
                 (l ++ [e]) Hc) as [Hl' Hc'].
    + rewrite length_place_entry. exact Hlen.
    + apply place_entry_contents; assumption.
    + split; [exact Hl'|]. intros b. rewrite Hc', <- app_assoc. reflexivity.
Qed.

Lemma represents_resize h l : represents h l -> represents (hashmap_resize h) l.
Proof.
  intros [[Hc Hlen] [Hsz Hbs]].
  destruct (foldl_rehash_contents (2 * capacity h) (all_entries (buckets h))
              (replicate (Z.to_nat (2 * capacity h)) None) [])
    as [Hl' Hc']; try lia.
  - apply length_replicate.
  - intros b. apply bucket_contents_replicate.
  - split; [split|split]; simpl; try lia; try assumption.
    intros b. rewrite Hc'. simpl.
    rewrite all_entries_contents.
    rewrite (map_ext _ (fun i => filter (in_bucket (capacity h) i) l))
      by (intros i; apply Hbs).
    rewrite (filter_classes _ (in_bucket (capacity h))
               (bucket_index (capacity h) (Z.of_nat b))).
    2: { unfold in_bucket. intros i j e Hi Hj. congruence. }
    2: { intros e. apply in_bucket_double. exact Hc. }
    rewrite decide_True; [reflexivity|].
    rewrite Hlen. apply bucket_index_lt, Hc.
Qed.

Lemma represents_well_formed h l : represents h l -> well_formed h.
Proof. intros [Hwf _]. exact Hwf. Qed.

(** *** The loop of [get] finds the first matching entry *)

Lemma get_scan_find k h output vec : forall pre,
  get_scan k (pre ++ vec) (seq (length pre) (length vec)) output h =
  match find (matches k) vec with
  | Some e => (true, value e, h)
  | None => (false, output, h)
  end.
Proof.
  induction vec as [|e vec IH]; intros pre.
  - reflexivity.
  - cbn [length seq get_scan find]. unfold vector_get, entry_vector.
    rewrite list_lookup_middle by reflexivity.
    unfold matches at 1. destruct (key_type_equals k (key e)); [reflexivity|].
    specialize (IH (pre ++ [e])).
    rewrite length_app, <- app_assoc in IH. simpl in IH.
    rewrite Nat.add_1_r in IH. exact IH.
Qed.

Lemma get_find h k output :
  get_key_type_to_value_type_hashmap h k output =
  match find (matches k)
          (bucket_contents (buckets h)
             (bucket_index (capacity h) (key_type_hash k))) with
  | Some e => (true, value e, h)
  | None => (false, output, h)
  end.
Proof.
  unfold get_key_type_to_value_type_hashmap, bucket_contents.
  destruct (buckets h !! _) as [[vec|]|]; try reflexivity.
  apply (get_scan_find k h output vec []).
Qed.

Lemma get_frame h k output :
  (get_key_type_to_value_type_hashmap h k output).2 = h.
Proof. rewrite get_find. destruct (find _ _); reflexivity. Qed.

Lemma find_filter_none {A} (p : A -> bool) (P : A -> Prop)
    `{forall x, Decision (P x)} (l : list A) :
  (forall x, x ∈ l -> p x = false) -> find p (filter P l) = None.
Proof.
  induction l as [|x l IH]; intros Hl; [reflexivity|].
  rewrite filter_cons.
  assert (Hx : p x = false) by (apply Hl; left).
  assert (Hr : find p (filter P l) = None)
    by (apply IH; intros y Hy; apply Hl; right; exact Hy).
  destruct (decide (P x)); [simpl; rewrite Hx|]; exact Hr.
Qed.

Lemma find_filter_first {A} (p : A -> bool) (P : A -> Prop)
    `{forall x, Decision (P x)} (l1 l2 : list A) (x : A) :
  (forall y, y ∈ l1 -> p y = false) -> P x -> p x = true ->
  find p (filter P (l1 ++ x :: l2)) = Some x.
Proof.
  intros Hl1 HP Hp. induction l1 as [|y l1 IH].
  - simpl. rewrite filter_cons, decide_True by exact HP.
    simpl. rewrite Hp. reflexivity.
  - simpl. rewrite filter_cons.
    assert (Hy : p y = false) by (apply Hl1; left).
    assert (Hr : find p (filter P (l1 ++ x :: l2)) = Some x)
      by (apply IH; intros z Hz; apply Hl1; right; exact Hz).
    destruct (decide (P y)); [simpl; rewrite Hy|]; exact Hr.
Qed.

(** *** Counting entries *)

Lemma entry_count_replicate n :
  entry_count (replicate n (@None (entry_vector key_type value_type))) = 0%nat.
Proof. induction n; simpl; auto. Qed.

Lemma entry_count_place b e : forall bs,
  (b < length bs)%nat ->
  entry_count (place_entry b e bs) = S (entry_count bs).
Proof.
  induction b as [|b IH]; intros [|slot bs] Hb; simpl in Hb; try lia.
  - unfold place_entry, bucket_contents, push. simpl.
    destruct slot as [vec|]; simpl; unfold vector_size;
      rewrite ?length_app; simpl; lia.
  - change (place_entry (S b) e (slot :: bs)) with (slot :: place_entry b e bs).
    simpl. rewrite IH by lia. destruct slot; lia.
Qed.

Lemma entry_count_foldl_rehash cap es : forall bs,
  0 < cap -> length bs = Z.to_nat cap ->
  length (foldl (rehash_entry cap) bs es) = Z.to_nat cap /\
  entry_count (foldl (rehash_entry cap) bs es) =
  (entry_count bs + length es)%nat.
Proof.
  induction es as [|e es IH]; intros bs Hc Hlen; simpl.
  - split; [exact Hlen | lia].
  - rewrite rehash_entry_place.
    destruct (IH (place_entry (bucket_index cap (key_type_hash (key e))) e bs)
                Hc) as [Hl' Hc'].
    + rewrite length_place_entry. exact Hlen.
    + split; [exact Hl'|]. rewrite Hc', entry_count_place; [lia|].
      rewrite Hlen. apply bucket_index_lt, Hc.
Qed.

Lemma length_all_entries bs : length (all_entries bs) = entry_count bs.
Proof.
  unfold all_entries. induction bs as [|slot bs IH]; [reflexivity|].
  simpl. rewrite length_app, IH. destruct slot; reflexivity.
Qed.

Lemma counted_new c :
  0 < c -> counted (new_hashmap c : hashmap key_type value_type).
Proof.
  intros Hc. split; [split|]; simpl; try lia.
  - apply length_replicate.
  - rewrite entry_count_replicate. reflexivity.
Qed.

Lemma counted_resize h : counted h -> counted (hashmap_resize h).
Proof.
  intros [[Hc Hlen] Hsz].
  destruct (entry_count_foldl_rehash (2 * capacity h) (all_entries (buckets h))
              (replicate (Z.to_nat (2 * capacity h)) None)) as [Hl' Hc'];
    try lia.
  - apply length_replicate.
  - split; [split|]; simpl; try lia; try assumption.
    rewrite Hc', entry_count_replicate, length_all_entries. exact Hsz.
Qed.

Lemma succ_mod_uint32 n :
  (Z.of_nat n mod UINT32_MODULUS + 1) mod UINT32_MODULUS =
  Z.of_nat (S n) mod UINT32_MODULUS.
Proof.
  rewrite Nat2Z.inj_succ. unfold Z.succ.
  rewrite Zplus_mod_idemp_l. reflexivity.
Qed.

Lemma counted_add h k v :
  counted h -> counted (add_key_type_to_value_type_hashmap h k v).1.
Proof.
  intros Hh.
  assert (H1 : counted (after_guard h))
    by (unfold after_guard; destruct (exceeds_load h);
        [apply counted_resize|]; exact Hh).
  destruct (add_result h k v) as (Hcap & Hsize & Hb).
  destruct H1 as [[Hc Hlen] Hsz].
  split; [split|].
  - rewrite Hcap. exact Hc.
  - rewrite Hb, length_place_entry, Hcap. exact Hlen.
  - rewrite Hsize, Hb, entry_count_place, Hsz.
    + apply succ_mod_uint32.
    + rewrite Hlen. apply bucket_index_lt, Hc.
Qed.

Lemma live_counted h : live h -> counted h.
Proof.
  induction 1 as [c Hc | h k v _ IH | h k output _ IH].
  - apply counted_new, Hc.
  - apply counted_add, IH.
  - rewrite get_frame. exact IH.
Qed.

End Engine.

(** ** Properties that rely on the capability laws *)

Section EngineLaws.

Context {key_type value_type : Type}.
Context `{Cap : Capabilities key_type value_type}.
Context {Laws : CapabilityLaws key_type value_type}.

Implicit Types (h : hashmap key_type value_type) (k : key_type)
  (v : value_type) (e : entry key_type value_type)
  (l : list (key_type * value_type)).

Lemma represents_add h (es : list (entry key_type value_type)) k v :
  represents h es ->
  represents (add_key_type_to_value_type_hashmap h k v).1
             (es ++ [stored (k, v)]).
Proof.
  intros Hh.
  assert (H1 : represents (after_guard h) es)
    by (unfold after_guard; destruct (exceeds_load h);
        [apply represents_resize|]; exact Hh).
  destruct (add_result h k v) as (Hcap & Hsize & Hb).
  destruct H1 as [[Hc Hlen] [Hsz Hbs]].
  assert (Hk : key_type_hash k = key_type_hash (key (stored (k, v))))
    by (simpl; symmetry; apply hash_copy).
  rewrite Hk in Hb.
  split; [split|split].
  - rewrite Hcap. exact Hc.
  - rewrite Hb, length_place_entry, Hcap. exact Hlen.
  - rewrite Hsize, Hsz, length_app. simpl. rewrite Nat.add_1_r.
    apply succ_mod_uint32.
  - intros b. rewrite Hb, Hcap. apply place_entry_contents; assumption.
Qed.

Lemma represents_add_all l : forall h (es : list (entry key_type value_type)),
  represents h es -> represents (add_all h l) (es ++ map stored l).
Proof.
  induction l as [|[k v] l IH]; intros h es Hh.
  - simpl. rewrite app_nil_r. exact Hh.
  - simpl. change (es ++ stored (k, v) :: map stored l)
      with (es ++ [stored (k, v)] ++ map stored l).
    rewrite app_assoc. apply IH. apply represents_add. exact Hh.
Qed.

Lemma represents_fresh c l :
  0 < c -> represents (add_all (new_hashmap c) l) (map stored l).
Proof.
  intros Hc. apply (represents_add_all l (new_hashmap c) []).
  apply represents_new, Hc.
Qed.

Lemma live_represents h : live h -> exists es, represents h es.
Proof.
  induction 1 as [c Hc | h k v _ [es IH] | h k output _ IH].
  - exists []. apply represents_new, Hc.
  - exists (es ++ [stored (k, v)]). apply represents_add, IH.
  - rewrite get_frame. exact IH.
Qed.

Lemma get_represents h (es : list (entry key_type value_type)) k output :
  represents h es ->
  get_key_type_to_value_type_hashmap h k output =
  match find (matches k)
          (filter (in_bucket (capacity h)
                     (bucket_index (capacity h) (key_type_hash k))) es) with
  | Some e => (true, value e, h)
  | None => (false, output, h)
  end.
Proof.
  intros [_ [_ Hbs]]. rewrite get_find, Hbs. reflexivity.
Qed.

Lemma matches_stored k kv : matches k (stored kv) = key_type_equals k kv.1.
Proof. unfold matches. simpl. apply equals_copy. Qed.

Lemma get_after_adds c l1 l2 k v output :
  0 < c ->
  (forall kv, kv ∈ l1 -> key_type_equals k kv.1 = false) ->
  let h := add_all (new_hashmap c) (l1 ++ (k, v) :: l2) in
  get_key_type_to_value_type_hashmap h k output = (true, copy_value_type v, h).
Proof.
  intros Hc Hl1 h.
  rewrite (get_represents h _ k output (represents_fresh c _ Hc)).
  rewrite map_app. simpl.
  rewrite (find_filter_first _ _ _ _ (stored (k, v))); [reflexivity| | |].
  - intros e He. apply list_elem_of_fmap in He as [kv [-> Hkv]].
    rewrite matches_stored. apply Hl1, Hkv.
  - unfold in_bucket. simpl. rewrite hash_copy. reflexivity.
  - rewrite matches_stored. apply equals_refl.
Qed.

End EngineLaws.

(** ** Size and capacity along a sequence of [add] calls *)

Section Dimensions.

Context {key_type value_type : Type}.
Context `{Cap : Capabilities key_type value_type}.

Implicit Types (h : hashmap key_type value_type) (k : key_type)
  (v : value_type) (l : list (key_type * value_type)).

Lemma add_dimensions_spec h k v :
  let h' := (add_key_type_to_value_type_hashmap h k v).1 in
  (size h', capacity h') = add_dimensions (size h, capacity h).
Proof.
  simpl. rewrite add_size, add_capacity. reflexivity.
Qed.

Lemma add_all_dimensions l : forall h,
  (size (add_all h l), capacity (add_all h l)) =
  Nat.iter (length l) add_dimensions (size h, capacity h).
Proof.
  induction l as [|[k v] l IH]; intros h.
  - reflexivity.
  - change (add_all h ((k, v) :: l))
      with (add_all (add_key_type_to_value_type_hashmap h k v).1 l).
    rewrite IH. pose proof (add_dimensions_spec h k v) as Hd. simpl in Hd.
    rewrite Hd. simpl length. rewrite Nat.iter_succ_r. reflexivity.
Qed.

Lemma add_resize_calls h k v :
  calls is_resize_call (add_key_type_to_value_type_hashmap h k v).2 =
  if exceeds_load h then 1%nat else 0%nat.
Proof.
  destruct (add_trace h k v) as (b & e & nv & ->).
  destruct (exceeds_load h), nv; reflexivity.
Qed.

Lemma add_all_size l : forall h,
  0 <= size h < UINT32_MODULUS ->
  size (add_all h l) = (size h + Z.of_nat (length l)) mod UINT32_MODULUS.
Proof.
  induction l as [|[k v] l IH]; intros h Hh.
  - simpl. rewrite Z.add_0_r, Z.mod_small by exact Hh. reflexivity.
  - change (add_all h ((k, v) :: l))
      with (add_all (add_key_type_to_value_type_hashmap h k v).1 l).
    rewrite IH; rewrite add_size.
    + rewrite Zplus_mod_idemp_l. f_equal. simpl length. lia.
    + apply Z.mod_pos_bound. reflexivity.
Qed.

Lemma delete_never_destroys h :
  calls is_destroy_call (delete_key_type_to_value_type_hashmap h) = 0%nat.
Proof.
  unfold delete_key_type_to_value_type_hashmap, calls.
  rewrite List.filter_app, length_app. simpl.
  induction (seq 0 (Z.to_nat (capacity h))) as [|i rest IH]; [reflexivity|].
  simpl. rewrite List.filter_app, length_app.
  destruct (buckets h !! i) as [[vec|]|]; simpl; exact IH.
Qed.

Lemma get_absent_bucket h k output :
  buckets h !! bucket_index (capacity h) (key_type_hash k) = Some None ->
  get_key_type_to_value_type_hashmap h k output = (false, output, h).
Proof.
  intros Hb. unfold get_key_type_to_value_type_hashmap. rewrite Hb.
  reflexivity.
Qed.

Lemma get_no_match h k output vec :
  buckets h !! bucket_index (capacity h) (key_type_hash k) = Some (Some vec) ->
  (forall e, e ∈ vec -> key_type_equals k (key e) = false) ->
  get_key_type_to_value_type_hashmap h k output = (false, output, h).
Proof.
  intros Hb Hvec. rewrite get_find. unfold bucket_contents. rewrite Hb.
  destruct (find (matches k) vec) as [e|] eqn:Hf; [|reflexivity].
  apply find_some in Hf as [Hin Hm]. unfold matches in Hm.
  rewrite Hvec in Hm; [discriminate|]. apply list_elem_of_In, Hin.
Qed.

(** *** Runs of [add] and what they leave in the buckets *)

Lemma represents_add_copy h (es : list (entry key_type value_type)) k v :
  key_type_hash (copy_key_type k) = key_type_hash k ->
  represents h es ->
  represents (add_key_type_to_value_type_hashmap h k v).1
             (es ++ [stored (k, v)]).
Proof.
  intros Hk Hh.
  assert (H1 : represents (after_guard h) es)
    by (unfold after_guard; destruct (exceeds_load h);
        [apply represents_resize|]; exact Hh).
  destruct (add_result h k v) as (Hcap & Hsize & Hb).
  destruct H1 as [[Hc Hlen] [Hsz Hbs]].
  change (key_type_hash k)
    with (key_type_hash (fst (k, v))) in Hb.
  simpl fst in Hb. rewrite <- Hk in Hb.
  change (copy_key_type k) with (key (stored (k, v))) in Hb.
  split; [split|split].
  - rewrite Hcap. exact Hc.
  - rewrite Hb, length_place_entry, Hcap. exact Hlen.
  - rewrite Hsize, Hsz, length_app. simpl. rewrite Nat.add_1_r.
    apply succ_mod_uint32.
  - intros b. rewrite Hb, Hcap. apply place_entry_contents; assumption.
Qed.

Lemma represents_run l :
  forall h (es : list (entry key_type value_type)),
  (forall kv, kv ∈ l ->
     key_type_hash (copy_key_type kv.1) = key_type_hash kv.1) ->
  represents h es -> represents (add_all h l) (es ++ map stored l).
Proof.
  induction l as [|[k v] l IH]; intros h es Hl Hh.
  - simpl. rewrite app_nil_r. exact Hh.
  - simpl. change (es ++ stored (k, v) :: map stored l)
      with (es ++ [stored (k, v)] ++ map stored l).
    rewrite app_assoc. apply IH.
    + intros kv Hkv. apply Hl. right. exact Hkv.
    + apply represents_add_copy; [apply (Hl (k, v)); left|exact Hh].
Qed.

Lemma entry_count_resize h :
  well_formed h ->
  entry_count (buckets (hashmap_resize h)) = entry_count (buckets h).
Proof.
  intros [Hc Hlen].
  destruct (entry_count_foldl_rehash (2 * capacity h) (all_entries (buckets h))
              (replicate (Z.to_nat (2 * capacity h)) None)) as [_ Hcount];
    try lia.
  - apply length_replicate.
  - simpl. rewrite Hcount, entry_count_replicate, length_all_entries.
    reflexivity.
Qed.

Lemma entry_count_add h k v :
  counted h ->
  entry_count (buckets (add_key_type_to_value_type_hashmap h k v).1) =
  S (entry_count (buckets h)).
Proof.
  intros Hh.
  assert (H1 : counted (after_guard h))
    by (unfold after_guard; destruct (exceeds_load h);
        [apply counted_resize|]; exact Hh).
  assert (Hcount : entry_count (buckets (after_guard h)) =
                   entry_count (buckets h))
    by (unfold after_guard; destruct (exceeds_load h);
        [apply entry_count_resize, Hh|reflexivity]).
  destruct (add_result h k v) as (_ & _ & Hb).
  destruct H1 as [[Hc Hlen] _].
  rewrite Hb, entry_count_place, Hcount; [reflexivity|].
  rewrite Hlen. apply bucket_index_lt, Hc.
Qed.

Lemma entry_count_add_all l : forall h,
  counted h ->
  entry_count (buckets (add_all h l)) =
  (entry_count (buckets h) + length l)%nat.
Proof.
  induction l as [|[k v] l IH]; intros h Hh.
  - simpl. lia.
  - change (add_all h ((k, v) :: l))
      with (add_all (add_key_type_to_value_type_hashmap h k v).1 l).
    rewrite IH by (apply counted_add, Hh).
    rewrite entry_count_add by exact Hh. simpl. lia.
Qed.

End Dimensions.

(** * The properties of the engine *)

Section Claims.

Context {key_type value_type : Type}.
Context `{Cap : Capabilities key_type value_type}.

Implicit Types (h : hashmap key_type value_type) (k : key_type)
  (v : value_type) (l : list (key_type * value_type)).

(** C4.  [add] calls [hashmap_resize] exactly when, on entry, [size] is
    greater than [capacity * LOAD_FACTOR]; the call is then the first thing
    [add] does, the one [push] comes after it and stores the entry in the
    resized bucket array.  When the guard is false there is no such call and
    [capacity] is unchanged. *)
Theorem add_grows_exactly_when_load_exceeded h k v :
  let '(h', t) := add_key_type_to_value_type_hashmap h k v in
  let exceeded :=
    (inject_Z (capacity h) * LOAD_FACTOR < inject_Z (size h))%Q in
  (calls is_resize_call t = 1%nat <-> exceeded) /\
  (exceeded ->
   exists t', t = call_hashmap_resize :: t' /\
              calls is_resize_call t' = 0%nat /\
              calls is_push_call t' = 1%nat /\
              buckets h' =
              place_entry
                (bucket_index (capacity (hashmap_resize h)) (key_type_hash k))
                (stored (k, v)) (buckets (hashmap_resize h))) /\
  (~ exceeded ->
   calls is_resize_call t = 0%nat /\ capacity h' = capacity h).
Proof.
  destruct (add_key_type_to_value_type_hashmap h k v) as [h' t] eqn:E.
  assert (Eh : h' = (add_key_type_to_value_type_hashmap h k v).1)
    by (rewrite E; reflexivity).
  assert (Et : t = (add_key_type_to_value_type_hashmap h k v).2)
    by (rewrite E; reflexivity).
  clear E. cbv zeta. rewrite <- exceeds_load_Qlt.
  pose proof (add_resize_calls h k v) as Hcalls.
  pose proof (add_capacity h k v) as Hcap.
  pose proof (add_buckets h k v) as Hb. simpl in Hb.
  unfold after_guard in Hb.
  destruct (add_trace h k v) as (b & e & nv & Ht).
  rewrite <- Eh in *. rewrite <- Et in *. clear Eh Et.
  destruct (exceeds_load h).
  - split; [split; auto|]. split; [|intros Hn; exfalso; auto].
    intros _. eexists. split; [exact Ht|].
    repeat split; try (destruct nv; reflexivity). exact Hb.
  - split; [split; [rewrite Hcalls|]; discriminate|].
    split; [discriminate|]. auto.
Qed.

(** C10.  [get] hands the table back as it received it.  The caller's
    output location keeps its content when the result is [false]; when the
    result is [true] it holds the value of an entry of the scanned bucket
    whose key equals the queried key. *)
Theorem get_writes_only_the_output_on_success h k output :
  let '(found, output', h') :=
    get_key_type_to_value_type_hashmap h k output in
  h' = h /\
  (found = false -> output' = output) /\
  (found = true ->
   exists e,
     e ∈ bucket_contents (buckets h)
           (bucket_index (capacity h) (key_type_hash k)) /\
     key_type_equals k (key e) = true /\ output' = value e).
Proof.
  rewrite get_find.
  destruct (find (matches k) _) as [e|] eqn:Hf.
  - split; [reflexivity|]. split; [discriminate|]. intros _.
    apply find_some in Hf as [Hin Hm].
    exists e. split; [apply list_elem_of_In, Hin|].
    split; [exact Hm|reflexivity].
  - split; [reflexivity|]. split; [reflexivity|discriminate].
Qed.

(** C7.  On a freshly created table, after a sequence of [add] calls whose
    number fits the 32-bit [size] field, [size] is the number of calls. *)
Theorem size_is_number_of_adds c l :
  Z.of_nat (length l) < UINT32_MODULUS ->
  size (add_all (new_hashmap c) l) = Z.of_nat (length l).
Proof.
  intros Hl. rewrite add_all_size by (simpl; split; [lia|reflexivity]).
  simpl. apply Z.mod_small. lia.
Qed.

(** C8.  After any sequence of [add] and [get] on a table created with a
    positive capacity, [size] is the number of entries held by the present
    buckets, as long as that number fits the 32-bit field. *)
Theorem size_is_sum_of_bucket_counts h :
  live h ->
  Z.of_nat (entry_count (buckets h)) < UINT32_MODULUS ->
  size h = Z.of_nat (entry_count (buckets h)).
Proof.
  intros Hlive Hfit. destruct (live_counted h Hlive) as [_ ->].
  apply Z.mod_small. lia.
Qed.

(** C1.  The code departs from the claim.  Whatever the capability
    functions and the table, an [add] copies one key and one value into the
    table, and the [delete] of the resulting table calls neither
    [delete_key_type] nor [delete_value_type]: it deletes the bucket
    vectors, which release their storage only, frees the bucket array and
    frees the table. *)
Theorem delete_calls_no_entry_destructor h k v :
  let '(h', t) := add_key_type_to_value_type_hashmap h k v in
  calls is_copy_call t = 2%nat /\
  calls is_destroy_call (delete_key_type_to_value_type_hashmap h') = 0%nat.
Proof.
  destruct (add_trace h k v) as (b & e & nv & Ht).
  destruct (add_key_type_to_value_type_hashmap h k v) as [h' t].
  simpl in Ht. subst t.
  split; [destruct (exceeds_load h), nv; reflexivity|].
  apply delete_never_destroys.
Qed.

(** C2, amended.  On a new table of capacity 4 that received three [add]
    calls, the fourth [add] does not call [hashmap_resize]: 3 is not greater
    than 4 * 0.75.  The capacity stays 4, [size] becomes 4 and the buckets
    hold four entries.  It is the next [add], entered with size 4, that
    calls [hashmap_resize] once and leaves a larger capacity. *)
Theorem fourth_add_does_not_grow k1 k2 k3 k4 v1 v2 v3 v4 :
  let h3 := add_all (new_hashmap 4) [(k1, v1); (k2, v2); (k3, v3)] in
  let '(h4, t) := add_key_type_to_value_type_hashmap h3 k4 v4 in
  (size h3 = 3 /\ capacity h3 = 4) /\
  calls is_resize_call t = 0%nat /\
  (size h4 = 4 /\ capacity h4 = 4 /\ entry_count (buckets h4) = 4%nat) /\
  (forall k v,
     calls is_resize_call (add_key_type_to_value_type_hashmap h4 k v).2
       = 1%nat /\
     capacity h4 < capacity (add_key_type_to_value_type_hashmap h4 k v).1).
Proof.
  intros h3.
  destruct (add_key_type_to_value_type_hashmap h3 k4 v4) as [h4 t] eqn:E.
  assert (Eh : h4 = add_all (new_hashmap 4)
                      [(k1, v1); (k2, v2); (k3, v3); (k4, v4)])
    by (change (h4 = (add_key_type_to_value_type_hashmap h3 k4 v4).1);
        rewrite E; reflexivity).
  assert (Et : t = (add_key_type_to_value_type_hashmap h3 k4 v4).2)
    by (rewrite E; reflexivity).
  clear E.
  assert (Hd3 : (size h3, capacity h3) = (3, 4))
    by (unfold h3; rewrite add_all_dimensions; reflexivity).
  assert (Hd4 : (size h4, capacity h4) = (4, 4))
    by (rewrite Eh, add_all_dimensions; reflexivity).
  injection Hd3 as Hs3 Hc3. injection Hd4 as Hs4 Hc4.
  assert (Hx3 : exceeds_load h3 = false)
    by (unfold exceeds_load; rewrite Hs3, Hc3; reflexivity).
  assert (Hx4 : exceeds_load h4 = true)
    by (unfold exceeds_load; rewrite Hs4, Hc4; reflexivity).
  assert (Hcount : entry_count (buckets h4) = 4%nat).
  { rewrite Eh, entry_count_add_all by (apply counted_new; reflexivity).
    reflexivity. }
  split; [auto|]. split; [rewrite Et, add_resize_calls, Hx3; reflexivity|].
  split; [auto|]. intros k v.
  rewrite add_resize_calls, add_capacity, Hx4, Hc4. split; reflexivity.
Qed.

(** C5, amended.  After [add(k, v)], and whatever is added later, [get(k)]
    answers [true] with the stored copy of [v], provided that no key whose
    stored copy equals [k] was added before it, that the stored copy of [k]
    equals [k], and that the stored copy of every key added hashes like the
    key. *)
Theorem get_returns_first_inserted_value c l1 l2 k v output :
  0 < c ->
  (forall kv, kv ∈ l1 ++ (k, v) :: l2 ->
     key_type_hash (copy_key_type kv.1) = key_type_hash kv.1) ->
  key_type_equals k (copy_key_type k) = true ->
  (forall kv, kv ∈ l1 -> key_type_equals k (copy_key_type kv.1) = false) ->
  let h := add_all (new_hashmap c) (l1 ++ (k, v) :: l2) in
  get_key_type_to_value_type_hashmap h k output = (true, copy_value_type v, h).
Proof.
  intros Hc Hhash Hself Hl1 h.
  assert (Hrep : represents h (map stored (l1 ++ (k, v) :: l2)))
    by (apply (represents_run _ (new_hashmap c) []);
        [exact Hhash|apply represents_new, Hc]).
  rewrite (get_represents h _ k output Hrep), map_app. simpl.
  rewrite (find_filter_first _ _ _ _ (stored (k, v))); [reflexivity| | |].
  - intros e He. apply list_elem_of_fmap in He as [kv [-> Hkv]].
    apply Hl1, Hkv.
  - assert (Hk : key_type_hash (copy_key_type k) = key_type_hash k)
      by (apply (Hhash (k, v)), elem_of_app; right; left).
    unfold in_bucket. simpl. rewrite Hk. reflexivity.
  - exact Hself.
Qed.

Context {Laws : CapabilityLaws key_type value_type}.

(** X13.  With capability functions whose copies hash and compare like
    the original: after any sequence of [add] and [get] on a table created
    with a positive capacity, every entry of every present bucket sits at
    the index its key hashes to modulo the current capacity, which is the
    slot [get] reads for that key. *)
Theorem entries_sit_in_their_hash_bucket h b vec e :
  live h ->
  buckets h !! b = Some (Some vec) ->
  e ∈ vec ->
  bucket_index (capacity h) (key_type_hash (key e)) = b /\
  buckets h !! bucket_index (capacity h) (key_type_hash (key e)) =
  Some (Some vec).
Proof.
  intros Hlive Hb He.
  destruct (live_represents h Hlive) as [es [_ [_ Hbs]]].
  assert (Hin : in_bucket (capacity h) b e).
  { specialize (Hbs b). unfold bucket_contents in Hbs. rewrite Hb in Hbs.
    rewrite Hbs in He. apply list_elem_of_filter in He as [He _]. exact He. }
  unfold in_bucket in Hin. rewrite Hin. auto.
Qed.

(** X14.  With capability functions whose copies hash and compare like
    the original: if no key equal to [k] was inserted, [get] answers [false]
    (and is a normal return: the output location and the table are
    untouched), whatever the buckets hold. *)
Theorem get_of_never_inserted_key c l k output :
  0 < c ->
  (forall kv, kv ∈ l -> key_type_equals k kv.1 = false) ->
  let h := add_all (new_hashmap c) l in
  get_key_type_to_value_type_hashmap h k output = (false, output, h).
Proof.
  intros Hc Hl h.
  rewrite (get_represents h _ k output (represents_fresh c l Hc)).
  rewrite find_filter_none; [reflexivity|].
  intros e He. apply list_elem_of_fmap in He as [kv [-> Hkv]].
  rewrite matches_stored. apply Hl, Hkv.
Qed.

(** X15.  With capability functions whose copies hash and compare like
    the original: two [add] calls with the same key on a new table leave two
    entries in the key's bucket, in the order of the calls, with [size] 2,
    and [get] answers with the value of the first. *)
Theorem add_same_key_twice k x y output :
  let h1 :=
    (add_key_type_to_value_type_hashmap
       new_key_type_to_value_type_hashmap k x).1 in
  let h2 := (add_key_type_to_value_type_hashmap h1 k y).1 in
  size h2 = 2 /\
  bucket_contents (buckets h2) (bucket_index (capacity h2) (key_type_hash k))
  = [stored (k, x); stored (k, y)] /\
  get_key_type_to_value_type_hashmap h2 k output =
  (true, copy_value_type x, h2).
Proof.
  intros h1 h2.
  assert (Hc : 0 < DEFAULT_BUCKET_SIZE) by reflexivity.
  change h2 with (add_all (new_hashmap DEFAULT_BUCKET_SIZE) [(k, x); (k, y)]).
  pose proof (represents_fresh DEFAULT_BUCKET_SIZE [(k, x); (k, y)] Hc)
    as [_ [Hsz Hbs]].
  split; [exact Hsz|]. split.
  - rewrite Hbs. simpl map. rewrite !filter_cons, filter_nil.
    rewrite !decide_True; [reflexivity| |];
      unfold in_bucket; simpl; rewrite hash_copy; reflexivity.
  - apply (get_after_adds DEFAULT_BUCKET_SIZE [] [(k, y)] k x output Hc).
    intros kv Hkv. inversion Hkv.
Qed.

End Claims.

(** * The theorems on tables over [int] *)

(** C2, as stated, fails.  The ints at 65536, 65540, 65544 and 65548 are
    four distinct keys (memory [self_memory]).  With capacity 4 and three
    entries, the [add] of the fourth makes no call to [hashmap_resize] and
    leaves the capacity at 4. *)
Lemma fourth_add_at_capacity_4_makes_no_resize :
  let h1 :=
    (add_int_to_int_hashmap self_memory (new_hashmap 4) 65536 65536).1 in
  let h2 := (add_int_to_int_hashmap self_memory h1 65540 65540).1 in
  let h3 := (add_int_to_int_hashmap self_memory h2 65544 65544).1 in
  let '(h4, t) := add_int_to_int_hashmap self_memory h3 65548 65548 in
  (size h3 = 3 /\ capacity h3 = 4) /\
  ~ (calls is_resize_call t = 1%nat /\ capacity h3 < capacity h4).
Proof.
  vm_compute. split; [auto|]. intros [Hcalls _]. discriminate Hcalls.
Qed.

(** C3.  The code departs from the claim on the generated instance.  With
    the memory [stray_memory], [add(65536, 65540)] and [add(65536, 65544)]
    leave [size] 2 and two entries in bucket 65536 mod 127 = 4, whose key is
    the int read at 65536, that is 65552.  [get] of key 65536 compares the
    int at 65536, which is 65552, with the int at 65552, which is 7, and
    answers [false]. *)
Theorem same_key_added_twice_is_not_found :
  let h1 :=
    (add_int_to_int_hashmap stray_memory new_int_to_int_hashmap
       65536 65540).1 in
  let h2 := (add_int_to_int_hashmap stray_memory h1 65536 65544).1 in
  size h2 = 2 /\
  buckets h2 !! 4%nat =
    Some (Some [{| key := 65552; value := 10 |};
                {| key := 65552; value := 20 |}]) /\
  get_int_to_int_hashmap stray_memory h2 65536 0 = (false, 0, h2).
Proof. vm_compute. auto. Qed.

(** C5, as stated, fails.  With the memory [self_memory], in which the
    three ints used are copied as themselves, [add(65536, 65544)] is the
    last insertion, so no equal key is inserted after it, and still
    [get(65536)] answers with 65540, the value of the earlier
    [add(65536, 65540)]. *)
Lemma get_after_earlier_equal_key_returns_other_value :
  let h1 :=
    (add_int_to_int_hashmap self_memory new_int_to_int_hashmap
       65536 65540).1 in
  let h2 := (add_int_to_int_hashmap self_memory h1 65536 65544).1 in
  self_memory 65544 = 65544 /\
  (get_int_to_int_hashmap self_memory h2 65536 0).1 = (true, 65540) /\
  (get_int_to_int_hashmap self_memory h2 65536 0).1 <> (true, 65544).
Proof.
  vm_compute. split; [reflexivity|]. split; [reflexivity|].
  intros Heq. discriminate Heq.
Qed.

(** C6.  The code departs from the claim on the generated instance.  With
    the memory [stray_memory], after [add(65536, 65540)] the key 66044 was
    never inserted and [int_equals], called as [get] calls it, tells it from
    65536.  It hashes to the same bucket 4, where [get] compares the int at
    66044 with the int at the stored key 65552, both 7, and answers [true]
    with the stored value. *)
Theorem get_finds_a_key_never_inserted :
  let h :=
    (add_int_to_int_hashmap stray_memory new_int_to_int_hashmap
       65536 65540).1 in
  @key_type_equals Z Z (int_as_called stray_memory) 66044 65536 = false /\
  bucket_index (capacity h) (int_hash 66044) = 4%nat /\
  get_int_to_int_hashmap stray_memory h 66044 0 = (true, 10, h).
Proof. vm_compute. auto. Qed.

(** C9.  The code departs from the claim on the generated instance.  With
    the memory [stray_memory], [add(65536, 65540)] puts its entry in bucket
    65536 mod 127 = 4, and the key it stores is the int read at 65536, that
    is 65552, which hashes to bucket 65552 mod 127 = 20. *)
Theorem entry_stored_outside_its_hash_bucket :
  let h :=
    (add_int_to_int_hashmap stray_memory new_int_to_int_hashmap
       65536 65540).1 in
  buckets h !! 4%nat = Some (Some [{| key := 65552; value := 10 |}]) /\
  bucket_index (capacity h) (int_hash 65552) = 20%nat.
Proof. vm_compute. auto. Qed.

(** The size theorem at three calls, two of them with the same key. *)
Lemma size_is_number_of_adds_witness :
  Z.of_nat (length [(1, 10); (2, 20); (1, 30)]) < UINT32_MODULUS /\
  size (add_all (new_hashmap 127) [(1, 10); (2, 20); (1, 30)]) = 3.
Proof.
  split; [reflexivity|].
  apply (size_is_number_of_adds 127 [(1, 10); (2, 20); (1, 30)]).
  reflexivity.
Defined.

(** A table reached by two [add] calls whose keys share bucket 1. *)
Lemma live_example :
  live (add_key_type_to_value_type_hashmap
          (add_key_type_to_value_type_hashmap new_int_to_int_hashmap 1 10).1
          128 20).1.
Proof.
  apply live_add, live_add, live_new. reflexivity.
Defined.

(** The counting invariant on that table. *)
Lemma size_is_sum_of_bucket_counts_witness :
  let h :=
    (add_key_type_to_value_type_hashmap
       (add_key_type_to_value_type_hashmap new_int_to_int_hashmap 1 10).1
       128 20).1 in
  live h /\
  Z.of_nat (entry_count (buckets h)) < UINT32_MODULUS /\
  size h = Z.of_nat (entry_count (buckets h)).
Proof.
  split; [exact live_example|]. split; [reflexivity|].
  apply (size_is_sum_of_bucket_counts _ live_example). reflexivity.
Defined.

(** The placement invariant on that table: key 128 sits in bucket
    128 mod 127 = 1. *)
Lemma entries_sit_in_their_hash_bucket_witness :
  let h :=
    (add_key_type_to_value_type_hashmap
       (add_key_type_to_value_type_hashmap new_int_to_int_hashmap 1 10).1
       128 20).1 in
  let vec := [{| key := 1; value := 10 |}; {| key := 128; value := 20 |}] in
  CapabilityLaws Z Z /\
  live h /\
  buckets h !! 1%nat = Some (Some vec) /\
  {| key := 128; value := 20 |} ∈ vec /\
  bucket_index (capacity h) (key_type_hash 128) = 1%nat.
Proof.
  split; [exact int_by_value_laws|].
  split; [exact live_example|]. split; [reflexivity|].
  split; [right; left|].
  apply (entries_sit_in_their_hash_bucket (Laws := int_by_value_laws) _ 1%nat
           [{| key := 1; value := 10 |}; {| key := 128; value := 20 |}]
           {| key := 128; value := 20 |} live_example).
  - reflexivity.
  - right; left.
Defined.

(** Key 5 differs from the keys 1 and 2. *)
Lemma no_equal_key_example :
  forall kv : Z * Z,
    kv ∈ [(1, 10); (2, 20)] -> key_type_equals 5 kv.1 = false.
Proof.
  intros kv Hkv.
  repeat (apply elem_of_cons in Hkv as [-> | Hkv]; [reflexivity|]).
  inversion Hkv.
Defined.

(** [get(5)] on a table that holds the keys 1 and 2. *)
Lemma get_of_never_inserted_key_witness :
  let h := add_all (new_hashmap 127) [(1, 10); (2, 20)] in
  CapabilityLaws Z Z /\
  0 < 127 /\
  (forall kv : Z * Z,
     kv ∈ [(1, 10); (2, 20)] -> key_type_equals 5 kv.1 = false) /\
  get_key_type_to_value_type_hashmap h 5 77 = (false, 77, h).
Proof.
  split; [exact int_by_value_laws|].
  split; [reflexivity|]. split; [exact no_equal_key_example|].
  apply (get_of_never_inserted_key (Laws := int_by_value_laws) 127
           [(1, 10); (2, 20)] 5 77); [reflexivity|exact no_equal_key_example].
Defined.

(** [get(65536)] after [add(65540, 65540)], [add(65536, 65544)] and a
    later [add(65536, 65540)], on the generated instance with the memory
    [self_memory]. *)
Lemma get_returns_first_inserted_value_witness :
  let cap := int_as_called self_memory in
  let l1 := [(65540, 65540)] in
  let l2 := [(65536, 65540)] in
  let h := @add_all Z Z cap (new_hashmap 127) (l1 ++ (65536, 65544) :: l2) in
  0 < 127 /\
  (forall kv : Z * Z, kv ∈ l1 ++ (65536, 65544) :: l2 ->
     @key_type_hash Z Z cap (@copy_key_type Z Z cap kv.1) =
     @key_type_hash Z Z cap kv.1) /\
  @key_type_equals Z Z cap 65536 (@copy_key_type Z Z cap 65536) = true /\
  (forall kv : Z * Z, kv ∈ l1 ->
     @key_type_equals Z Z cap 65536 (@copy_key_type Z Z cap kv.1) = false) /\
  get_int_to_int_hashmap self_memory h 65536 0 = (true, 65544, h).
Proof.
  intros cap l1 l2 h.
  assert (Hhash : forall kv : Z * Z, kv ∈ l1 ++ (65536, 65544) :: l2 ->
            @key_type_hash Z Z cap (@copy_key_type Z Z cap kv.1) =
            @key_type_hash Z Z cap kv.1).
  { intros kv Hkv.
    repeat (apply elem_of_cons in Hkv as [-> | Hkv]; [reflexivity|]).
    inversion Hkv. }
  assert (Hl1 : forall kv : Z * Z, kv ∈ l1 ->
            @key_type_equals Z Z cap 65536 (@copy_key_type Z Z cap kv.1)
            = false).
  { intros kv Hkv.
    repeat (apply elem_of_cons in Hkv as [-> | Hkv]; [reflexivity|]).
    inversion Hkv. }
  split; [reflexivity|]. split; [exact Hhash|]. split; [reflexivity|].
  split; [exact Hl1|].
  exact (@get_returns_first_inserted_value Z Z cap 127 l1 l2 65536 65544 0
           eq_refl Hhash eq_refl Hl1).
Defined.

(** [add(1, 10)] then [add(1, 20)] on the table of the generated
    constructor, with the by-value functions. *)
Lemma add_same_key_twice_witness :
  let h1 :=
    (add_key_type_to_value_type_hashmap new_int_to_int_hashmap 1 10).1 in
  let h2 := (add_key_type_to_value_type_hashmap h1 1 20).1 in
  CapabilityLaws Z Z /\
  size h2 = 2 /\
  bucket_contents (buckets h2) 1%nat =
    [{| key := 1; value := 10 |}; {| key := 1; value := 20 |}] /\
  get_key_type_to_value_type_hashmap h2 1 0 = (true, 10, h2).
Proof.
  split; [exact int_by_value_laws|].
  exact (add_same_key_twice (Laws := int_by_value_laws) 1 10 20 0).
Defined.

(** * Further properties of the generated functions *)

Section MoreEngine.

Context {key_type value_type : Type}.
Context `{Cap : Capabilities key_type value_type}.

Implicit Types (h : hashmap key_type value_type) (k : key_type)
  (v : value_type) (e : entry key_type value_type)
  (bs : list (option (entry_vector key_type value_type)))
  (l : list (key_type * value_type))
  (t : list (event key_type value_type)).

Lemma UINT32_MODULUS_value : UINT32_MODULUS = 4294967296.
Proof. reflexivity. Qed.

Lemma calls_app which t1 t2 :
  calls which (t1 ++ t2) = (calls which t1 + calls which t2)%nat.
Proof. unfold calls. rewrite List.filter_app, length_app. reflexivity. Qed.

Lemma find_snoc {A} (p : A -> bool) (xs : list A) (x : A) :
  find p (xs ++ [x]) =
  match find p xs with
  | Some y => Some y
  | None => if p x then Some x else None
  end.
Proof.
  induction xs as [|y xs IH]; simpl.
  - reflexivity.
  - destruct (p y); [reflexivity|exact IH].
Qed.

Lemma find_filter_all {A} (p : A -> bool) (P : A -> Prop)
    `{forall x, Decision (P x)} (xs : list A) :
  (forall x, p x = true -> P x) -> find p (filter P xs) = find p xs.
Proof.
  intros Hp. induction xs as [|x xs IH]; [reflexivity|].
  rewrite filter_cons. simpl.
  destruct (decide (P x)) as [HP|HP]; simpl.
  - rewrite IH. reflexivity.
  - destruct (p x) eqn:Hx; [exfalso; auto|exact IH].
Qed.

Lemma find_map {A B} (p : B -> bool) (f : A -> B) (xs : list A) :
  find p (map f xs) = option_map f (find (fun x => p (f x)) xs).
Proof.
  induction xs as [|x xs IH]; simpl; [reflexivity|].
  destruct (p (f x)); [reflexivity|exact IH].
Qed.

(** X1.  The guard of [add], computed in double precision, is the integer
    comparison [3 * capacity < 4 * size]. *)
Theorem growth_guard_is_integer_comparison h :
  exceeds_load h = true <-> 3 * capacity h < 4 * size h.
Proof. rewrite exceeds_load_Z. lia. Qed.

(** *** A run of [add] calls below the threshold *)

Lemma add_new_vector_calls h k v :
  calls is_new_vector_call (add_key_type_to_value_type_hashmap h k v).2 =
  match buckets (after_guard h)
          !! bucket_index (capacity (after_guard h)) (key_type_hash k) with
  | Some None => 1%nat
  | _ => 0%nat
  end.
Proof.
  unfold add_key_type_to_value_type_hashmap, after_guard.
  destruct (exceeds_load h); cbn -[hashmap_resize bucket_index];
    destruct (_ !! _) as [[vec|]|]; reflexivity.
Qed.

Lemma present_vectors_replicate n :
  present_vectors (replicate n (@None (entry_vector key_type value_type)))
  = [].
Proof. induction n; simpl; auto. Qed.

Lemma present_vectors_place b e : forall bs,
  length (present_vectors (place_entry b e bs)) =
  (length (present_vectors bs) +
   match bs !! b with Some None => 1 | _ => 0 end)%nat.
Proof.
  induction b as [|b IH]; intros [|slot bs].
  - reflexivity.
  - unfold place_entry, present_vectors. simpl.
    rewrite !length_app. destruct slot; simpl; lia.
  - reflexivity.
  - change (place_entry (S b) e (slot :: bs))
      with (slot :: place_entry b e bs).
    change ((slot :: bs) !! S b) with (bs !! b).
    unfold present_vectors in *. simpl. rewrite !length_app, IH. lia.
Qed.

Lemma add_all_traced_below_load l : forall h,
  0 <= size h ->
  capacity h < UINT32_MODULUS ->
  4 * (size h + Z.of_nat (length l)) <= 3 * capacity h + 4 ->
  let '(h', t) := add_all_traced h l in
  h' = add_all h l /\
  capacity h' = capacity h /\
  size h' = size h + Z.of_nat (length l) /\
  length (buckets h') = length (buckets h) /\
  calls is_resize_call t = 0%nat /\
  length (present_vectors (buckets h')) =
  (length (present_vectors (buckets h)) + calls is_new_vector_call t)%nat.
Proof.
  induction l as [|[k v] l IH]; intros h Hs Hc Hn.
  - simpl. rewrite Z.add_0_r. unfold calls. simpl. repeat split; auto.
  - cbn [add_all_traced fst snd].
    change (length ((k, v) :: l)) with (S (length l)) in Hn.
    rewrite Nat2Z.inj_succ in Hn.
    assert (Hx : exceeds_load h = false).
    { destruct (exceeds_load h) eqn:Hx; [|reflexivity].
      apply exceeds_load_Z in Hx. lia. }
    pose proof (add_resize_calls h k v) as Hcalls.
    pose proof (add_new_vector_calls h k v) as Hnew.
    destruct (add_result h k v) as (Hcap & Hsize & Hb).
    unfold after_guard in Hcap, Hsize, Hb, Hnew. rewrite Hx in *.
    destruct (add_key_type_to_value_type_hashmap h k v) as [h1 t1] eqn:E.
    cbn [fst snd] in *.
    assert (Hsize1 : size h1 = size h + 1).
    { rewrite Hsize. apply Z.mod_small.
      rewrite UINT32_MODULUS_value in *. lia. }
    specialize (IH h1). rewrite Hcap, Hsize1 in IH.
    destruct (add_all_traced h1 l) as [h2 t2].
    destruct IH as (Hh2 & Hcap2 & Hsize2 & Hlen2 & Hcalls2 & Hpres2);
      try lia.
    repeat split.
    + rewrite Hh2. unfold add_all. simpl. rewrite E. reflexivity.
    + exact Hcap2.
    + simpl length. lia.
    + rewrite Hlen2, Hb. apply length_place_entry.
    + rewrite calls_app, Hcalls, Hcalls2. reflexivity.
    + rewrite Hpres2, Hb, present_vectors_place, calls_app, Hnew. lia.
Qed.

(** X2.  On a new table of capacity [c], the [add] calls made while
    [4 * (n - 1) <= 3 * c], [n] counting the calls, never call
    [hashmap_resize]: the table keeps its capacity and its bucket array and
    [size] is [n].  The next [add] calls [hashmap_resize] exactly when
    [3 * c < 4 * n]. *)
Theorem first_growth_of_a_new_table c l k v :
  0 < c < UINT32_MODULUS ->
  4 * Z.of_nat (length l) <= 3 * c + 4 ->
  let '(h, t) := add_all_traced (new_hashmap c) l in
  calls is_resize_call t = 0%nat /\
  capacity h = c /\
  size h = Z.of_nat (length l) /\
  length (buckets h) = Z.to_nat c /\
  (calls is_resize_call (add_key_type_to_value_type_hashmap h k v).2 = 1%nat
   <-> 3 * c < 4 * Z.of_nat (length l)).
Proof.
  intros Hc Hn.
  pose proof (add_all_traced_below_load l (new_hashmap c)) as Hrun.
  simpl in Hrun.
  destruct (add_all_traced (new_hashmap c) l) as [h t].
  destruct Hrun as (_ & Hcap & Hsize & Hlen & Hcalls & _); try lia.
  rewrite length_replicate in Hlen.
  repeat split; try assumption.
  - rewrite add_resize_calls. intros Hone.
    destruct (exceeds_load h) eqn:Hx; [|discriminate].
    apply exceeds_load_Z in Hx. lia.
  - intros Hlt. rewrite add_resize_calls.
    destruct (exceeds_load h) eqn:Hx; [reflexivity|].
    assert (Hx' : exceeds_load h = true)
      by (apply exceeds_load_Z; lia).
    congruence.
Qed.

(** *** [get] and the order of a bucket *)

(** X3.  [get] answers with the value of the first entry of the key's
    bucket whose key the queried key equals: entries before it that do not
    match are passed over, entries after it are not looked at. *)
Theorem get_returns_first_match_of_bucket h k output pre e post :
  buckets h !! bucket_index (capacity h) (key_type_hash k)
    = Some (Some (pre ++ e :: post)) ->
  (forall x, x ∈ pre -> key_type_equals k (key x) = false) ->
  key_type_equals k (key e) = true ->
  get_key_type_to_value_type_hashmap h k output = (true, value e, h).
Proof.
  intros Hb Hpre He. rewrite get_find. unfold bucket_contents.
  unfold entry_vector in *. rewrite Hb.
  assert (Hf : find (matches k) (pre ++ e :: post) = Some e).
  { clear Hb. induction pre as [|x pre IH]; simpl.
    - unfold matches at 1. rewrite He. reflexivity.
    - unfold matches at 1. rewrite (Hpre x) by left.
      apply IH. intros y Hy. apply Hpre. right. exact Hy. }
  rewrite Hf. reflexivity.
Qed.

(** X4.  An [add] below the load threshold only appends to the bucket of
    its key.  A [get] that found a value before finds the same value
    afterwards; a [get] that found nothing finds the copy of the added value
    when its key falls in the same bucket and equals the stored copy of the
    added key, and nothing otherwise. *)
Theorem get_after_add_below_load h k v k' output :
  well_formed h ->
  exceeds_load h = false ->
  let h' := (add_key_type_to_value_type_hashmap h k v).1 in
  let same_bucket :=
    bool_decide (bucket_index (capacity h) (key_type_hash k') =
                 bucket_index (capacity h) (key_type_hash k)) in
  get_key_type_to_value_type_hashmap h' k' output =
  match get_key_type_to_value_type_hashmap h k' output with
  | (true, x, _) => (true, x, h')
  | (false, _, _) =>
      if same_bucket && key_type_equals k' (copy_key_type k)
      then (true, copy_value_type v, h')
      else (false, output, h')
  end.
Proof.
  intros [Hc Hlen] Hx h' same_bucket.
  destruct (add_result h k v) as (Hcap & _ & Hb).
  unfold after_guard in Hcap, Hb. rewrite Hx in Hcap, Hb.
  fold h' in Hcap, Hb.
  rewrite !get_find, Hcap, Hb. subst same_bucket.
  destruct (decide (bucket_index (capacity h) (key_type_hash k') =
                    bucket_index (capacity h) (key_type_hash k))) as [Heq|Hne].
  - rewrite bool_decide_eq_true_2 by exact Heq. rewrite Heq.
    rewrite bucket_contents_place_eq
      by (rewrite Hlen; apply bucket_index_lt, Hc).
    rewrite find_snoc.
    destruct (find (matches k') _) as [x|]; [reflexivity|].
    unfold matches. simpl.
    destruct (key_type_equals k' (copy_key_type k)); reflexivity.
  - rewrite bool_decide_eq_false_2 by exact Hne.
    rewrite bucket_contents_place_ne by (intros Heq; apply Hne; auto).
    destruct (find (matches k') _) as [x|]; reflexivity.
Qed.

(** *** [delete] *)

Lemma flat_map_seq_shift {B} (f : nat -> list B) n :
  flat_map f (seq 1 n) = flat_map (fun i => f (S i)) (seq 0 n).
Proof.
  rewrite <- seq_shift. induction (seq 0 n) as [|i rest IH]; simpl;
    [reflexivity|rewrite IH; reflexivity].
Qed.

Lemma delete_loop_present bs :
  flat_map
    (fun i =>
       match bs !! i with
       | Some (Some vec) => [@call_delete_entry_vector key_type value_type vec]
       | _ => []
       end)
    (seq 0 (length bs))
  = map call_delete_entry_vector (present_vectors bs).
Proof.
  induction bs as [|slot bs IH]; [reflexivity|].
  cbn [length seq flat_map]. rewrite flat_map_seq_shift.
  change (flat_map _ (seq 0 (length bs)))
    with (flat_map
            (fun i =>
               match bs !! i with
               | Some (Some vec) =>
                   [@call_delete_entry_vector key_type value_type vec]
               | _ => []
               end)
            (seq 0 (length bs))).
  rewrite IH. unfold present_vectors. simpl. rewrite map_app.
  destruct slot as [vec|]; reflexivity.
Qed.

(** X5.  On a table whose bucket array has [capacity] slots, [delete]
    deletes the vector of every non-NULL slot once, in slot order, then
    frees the bucket array, then the table, and does nothing else. *)
Theorem delete_releases_each_present_bucket_once h :
  length (buckets h) = Z.to_nat (capacity h) ->
  delete_key_type_to_value_type_hashmap h =
  map call_delete_entry_vector (present_vectors (buckets h))
  ++ [call_kfree_buckets; call_kfree_hashmap].
Proof.
  intros Hlen. unfold delete_key_type_to_value_type_hashmap.
  rewrite <- Hlen. f_equal. apply delete_loop_present.
Qed.

Lemma calls_delete_vector_map
    (vs : list (entry_vector key_type value_type)) :
  calls is_delete_vector_call (map call_delete_entry_vector vs) = length vs.
Proof.
  unfold calls. induction vs as [|vec vs IH];
    [reflexivity|simpl; rewrite IH; reflexivity].
Qed.

(** X12.  In a run of [add] calls on a new table that stays below the
    load threshold, the vectors [add] creates are the vectors a final
    [delete] deletes: there are as many calls of the one as of the other,
    one per non-NULL slot of the final table. *)
Theorem vectors_created_are_vectors_deleted c l :
  0 < c < UINT32_MODULUS ->
  4 * Z.of_nat (length l) <= 3 * c + 4 ->
  let '(h, t) := add_all_traced (new_hashmap c) l in
  calls is_new_vector_call t =
  calls is_delete_vector_call (delete_key_type_to_value_type_hashmap h) /\
  calls is_new_vector_call t = length (present_vectors (buckets h)).
Proof.
  intros Hc Hn.
  pose proof (add_all_traced_below_load l (new_hashmap c)) as Hrun.
  simpl in Hrun.
  destruct (add_all_traced (new_hashmap c) l) as [h t].
  destruct Hrun as (_ & Hcap & _ & Hlen & _ & Hpres); try lia.
  rewrite length_replicate in Hlen.
  rewrite present_vectors_replicate in Hpres. simpl in Hpres.
  split; [|symmetry; exact Hpres].
  unfold delete_key_type_to_value_type_hashmap.
  rewrite Hcap, <- Hlen, delete_loop_present, calls_app.
  rewrite calls_delete_vector_map, <- Hpres. unfold calls. simpl. lia.
Qed.

(** *** Invariants of the tables in use *)

Lemma no_empty_vector_replicate n :
  no_empty_vector (replicate n (@None (entry_vector key_type value_type))).
Proof.
  intros b vec Hb. apply lookup_replicate in Hb as [Hb _]. discriminate.
Qed.

Lemma no_empty_vector_place b e bs :
  no_empty_vector bs -> no_empty_vector (place_entry b e bs).
Proof.
  intros Hbs b' vec. unfold place_entry.
  destruct (decide (b = b')) as [<-|Hne].
  - destruct (decide (b < length bs)%nat) as [Hlt|Hge].
    + rewrite list_lookup_insert_eq by exact Hlt.
      intros [= <-]. unfold push. intros Hnil.
      apply app_eq_nil in Hnil as [_ Hnil]. discriminate.
    + rewrite list_insert_ge by lia. apply Hbs.
  - rewrite list_lookup_insert_ne by exact Hne. apply Hbs.
Qed.

Lemma no_empty_vector_foldl cap es : forall bs,
  no_empty_vector bs -> no_empty_vector (foldl (rehash_entry cap) bs es).
Proof.
  induction es as [|e es IH]; intros bs Hbs; [exact Hbs|].
  simpl. apply IH. rewrite rehash_entry_place.
  apply no_empty_vector_place, Hbs.
Qed.

Lemma live_shape h :
  live h -> well_formed h /\ no_empty_vector (buckets h).
Proof.
  induction 1 as [c Hc | h k v Hlive [Hwf Hne] | h k output _ IH].
  - split; [apply counted_new, Hc|apply no_empty_vector_replicate].
  - split; [apply (counted_add h k v), live_counted, Hlive|].
    destruct (add_result h k v) as (_ & _ & ->).
    apply no_empty_vector_place. unfold after_guard.
    destruct (exceeds_load h); [|exact Hne].
    apply no_empty_vector_foldl, no_empty_vector_replicate.
  - rewrite get_frame. exact IH.
Qed.

(** X6.  On every table reached from a new one by [add] and [get], the
    bucket array has exactly [capacity] slots, [capacity] is positive, and
    the slot [add] and [get] compute for a key lies inside the array. *)
Theorem bucket_index_stays_inside_the_array h k :
  live h ->
  0 < capacity h /\
  length (buckets h) = Z.to_nat (capacity h) /\
  (bucket_index (capacity h) (key_type_hash k) < length (buckets h))%nat.
Proof.
  intros Hlive. destruct (live_shape h Hlive) as [[Hc Hlen] _].
  split; [exact Hc|]. split; [exact Hlen|].
  rewrite Hlen. apply bucket_index_lt, Hc.
Qed.

(** X7.  On every table reached from a new one by [add] and [get], a
    non-NULL slot points to a vector with at least one entry: a vector is
    created only to receive an entry. *)
Theorem present_bucket_is_never_empty h b vec :
  live h ->
  buckets h !! b = Some (Some vec) ->
  (0 < vector_size vec)%nat.
Proof.
  intros Hlive Hb. destruct (live_shape h Hlive) as [_ Hne].
  specialize (Hne b vec Hb). unfold vector_size.
  destruct vec; [congruence|simpl; lia].
Qed.

End MoreEngine.

(** ** Further properties that rely on the capability laws *)

Section MoreEngineLaws.

Context {key_type value_type : Type}.
Context `{Cap : Capabilities key_type value_type}.
Context {Laws : CapabilityLaws key_type value_type}.
Context {Respects : HashRespectsEquals key_type value_type}.

Implicit Types (h : hashmap key_type value_type) (k : key_type)
  (v : value_type) (e : entry key_type value_type)
  (l : list (key_type * value_type)).

Lemma find_ext {A} (p q : A -> bool) (xs : list A) :
  (forall x, p x = q x) -> find p xs = find q xs.
Proof.
  intros Hpq. induction xs as [|x xs IH]; simpl; [reflexivity|].
  rewrite Hpq, IH. reflexivity.
Qed.

(** With keys that hash alike when they compare equal, the bucket [get]
    scans holds every entry that matches, so [get] searches the whole
    history. *)
Lemma get_represents_history h (es : list (entry key_type value_type))
    k output :
  represents h es ->
  get_key_type_to_value_type_hashmap h k output =
  match find (matches k) es with
  | Some e => (true, value e, h)
  | None => (false, output, h)
  end.
Proof.
  intros Hrep. rewrite (get_represents h es k output Hrep).
  rewrite find_filter_all; [reflexivity|].
  intros e He. unfold in_bucket. unfold matches in He.
  rewrite (equals_hash _ _ He). reflexivity.
Qed.

(** X8.  On a table reached from a new one by [add] and [get], [add] acts
    on [get] as an insertion that never overwrites: a key that was found is
    found with the same value, and a key that was not found is found, with
    the copy of the added value, exactly when it equals the added key. *)
Theorem add_never_overwrites h k v k' output :
  live h ->
  let h' := (add_key_type_to_value_type_hashmap h k v).1 in
  get_key_type_to_value_type_hashmap h' k' output =
  match get_key_type_to_value_type_hashmap h k' output with
  | (true, x, _) => (true, x, h')
  | (false, _, _) =>
      if key_type_equals k' k then (true, copy_value_type v, h')
      else (false, output, h')
  end.
Proof.
  intros Hlive h'. destruct (live_represents h Hlive) as [es Hrep].
  rewrite (get_represents_history h' _ k' output (represents_add h es k v Hrep)).
  rewrite (get_represents_history h es k' output Hrep).
  rewrite find_snoc.
  destruct (find (matches k') es) as [x|]; [reflexivity|].
  rewrite matches_stored. simpl.
  destruct (key_type_equals k' k); reflexivity.
Qed.

(** X9.  After a sequence of [add] calls on a new table, [get] answers as a
    search through the calls in order: the copy of the value of the first
    call whose key the queried key equals, or not found when there is no
    such call. *)
Theorem get_searches_the_history c l k output :
  0 < c ->
  let h := add_all (new_hashmap c) l in
  get_key_type_to_value_type_hashmap h k output =
  match first_added k l with
  | Some kv => (true, copy_value_type kv.2, h)
  | None => (false, output, h)
  end.
Proof.
  intros Hc h.
  rewrite (get_represents_history h _ k output (represents_fresh c l Hc)).
  rewrite find_map. unfold first_added.
  rewrite (find_ext _ (fun kv => key_type_equals k kv.1))
    by (intros kv; apply matches_stored).
  destruct (find _ l) as [kv|]; reflexivity.
Qed.

(** X10.  On a table reached from a new one by [add] and [get], a [get]
    that answers not found means that no entry of any bucket has a key the
    queried key equals. *)
Theorem not_found_means_no_entry_matches h k output b vec e :
  live h ->
  (get_key_type_to_value_type_hashmap h k output).1.1 = false ->
  buckets h !! b = Some (Some vec) ->
  e ∈ vec ->
  key_type_equals k (key e) = false.
Proof.
  intros Hlive Hget Hb He.
  destruct (live_represents h Hlive) as [es Hrep].
  rewrite (get_represents_history h es k output Hrep) in Hget.
  destruct (find (matches k) es) as [x|] eqn:Hf; [discriminate|].
  destruct Hrep as [_ [_ Hbs]]. specialize (Hbs b).
  unfold bucket_contents in Hbs. rewrite Hb in Hbs. rewrite Hbs in He.
  apply list_elem_of_filter in He as [_ He].
  apply (find_none _ _ Hf e), list_elem_of_In, He.
Qed.

End MoreEngineLaws.

(** ** The primitives of [libk/types.h] *)

(** X11.  For [int] keys the hash is a 32-bit unsigned value, and two keys
    have the same hash exactly when [int_equals] holds: distinct keys share
    a bucket only through the modulo. *)
Theorem int_hash_separates_keys i j :
  - 2 ^ 31 <= i < 2 ^ 31 ->
  - 2 ^ 31 <= j < 2 ^ 31 ->
  0 <= int_hash i < UINT32_MODULUS /\
  (int_hash i = int_hash j <-> int_equals i j = true).
Proof.
  intros Hi Hj. unfold int_hash, int_equals.
  rewrite UINT32_MODULUS_value.
  change (2 ^ 31) with 2147483648 in *.
  split; [apply Z.mod_pos_bound; lia|].
  rewrite Z.eqb_eq. split; [|intros ->; reflexivity].
  intros Hh.
  assert (Hmod : forall x, - 2147483648 <= x < 2147483648 ->
            x mod 4294967296 = if x <? 0 then x + 4294967296 else x).
  { intros x Hx. destruct (x <? 0) eqn:Hneg.
    - apply Z.ltb_lt in Hneg. symmetry.
      apply (Z.mod_unique x 4294967296 (-1)); lia.
    - apply Z.ltb_ge in Hneg. apply Z.mod_small. lia. }
  rewrite (Hmod i Hi), (Hmod j Hj) in Hh.
  destruct (i <? 0) eqn:Hin, (j <? 0) eqn:Hjn;
    rewrite ?Z.ltb_lt, ?Z.ltb_ge in *; lia.
Qed.

#[export] Instance int_by_value_respects : HashRespectsEquals Z Z.
Proof.
  intros k1 k2. simpl. unfold int_equals. rewrite Z.eqb_eq.
  intros ->. reflexivity.
Qed.

(** ** The further properties on tables over [int] *)

(** Four calls on a table of capacity 4 do not grow it; the fifth does. *)
Lemma first_growth_of_a_new_table_witness :
  let l := [(1, 10); (2, 20); (3, 30); (4, 40)] in
  0 < 4 < UINT32_MODULUS /\
  4 * Z.of_nat (length l) <= 3 * 4 + 4 /\
  calls is_resize_call (add_all_traced (new_hashmap 4) l).2 = 0%nat /\
  capacity (add_all_traced (new_hashmap 4) l).1 = 4 /\
  calls is_resize_call
    (add_key_type_to_value_type_hashmap
       (add_all_traced (new_hashmap 4) l).1 5 50).2 = 1%nat.
Proof.
  intros l.
  assert (Hc : 0 < 4 < UINT32_MODULUS) by (split; reflexivity).
  assert (Hn : 4 * Z.of_nat (length l) <= 3 * 4 + 4) by (simpl; lia).
  split; [exact Hc|]. split; [exact Hn|].
  pose proof (first_growth_of_a_new_table 4 l 5 50 Hc Hn) as Hthm.
  destruct (add_all_traced (new_hashmap 4) l) as [h t].
  destruct Hthm as (Hcalls & Hcap & _ & _ & Hnext).
  split; [exact Hcalls|]. split; [exact Hcap|].
  apply Hnext. simpl. lia.
Defined.

(** Bucket 1 of a table over the by-value functions after [add] of the keys
    1, 128 and 1. *)
Lemma get_returns_first_match_of_bucket_witness :
  let h := add_all new_int_to_int_hashmap [(1, 10); (128, 20); (1, 30)] in
  buckets h !! bucket_index (capacity h) (key_type_hash 128)
    = Some (Some ([{| key := 1; value := 10 |}]
                  ++ {| key := 128; value := 20 |}
                  :: [{| key := 1; value := 30 |}])) /\
  (forall x : entry Z Z,
     x ∈ [{| key := 1; value := 10 |}] -> key_type_equals 128 (key x) = false)
  /\
  key_type_equals 128 (key {| key := 128; value := 20 |}) = true /\
  get_key_type_to_value_type_hashmap h 128 0 = (true, 20, h).
Proof.
  intros h.
  assert (Hb : buckets h !! bucket_index (capacity h) (key_type_hash 128)
               = Some (Some ([{| key := 1; value := 10 |}]
                             ++ {| key := 128; value := 20 |}
                             :: [{| key := 1; value := 30 |}])))
    by reflexivity.
  assert (Hpre : forall x : entry Z Z,
             x ∈ [{| key := 1; value := 10 |}] ->
             key_type_equals 128 (key x) = false).
  { intros x Hx. apply elem_of_cons in Hx as [-> | Hx]; [reflexivity|].
    inversion Hx. }
  split; [exact Hb|]. split; [exact Hpre|]. split; [reflexivity|].
  exact (get_returns_first_match_of_bucket h 128 0 _ _ _ Hb Hpre eq_refl).
Defined.

(** [add(128, 20)] on a table that holds key 1 in the same bucket. *)
Lemma get_after_add_below_load_witness :
  let h := add_all new_int_to_int_hashmap [(1, 10)] in
  let h' := (add_key_type_to_value_type_hashmap h 128 20).1 in
  well_formed h /\
  exceeds_load h = false /\
  get_key_type_to_value_type_hashmap h' 128 0 = (true, 20, h') /\
  get_key_type_to_value_type_hashmap h' 1 0 = (true, 10, h').
Proof.
  intros h h'.
  assert (Hwf : well_formed h) by (split; reflexivity).
  assert (Hx : exceeds_load h = false) by reflexivity.
  split; [exact Hwf|]. split; [exact Hx|]. split.
  - exact (get_after_add_below_load h 128 20 128 0 Hwf Hx).
  - exact (get_after_add_below_load h 128 20 1 0 Hwf Hx).
Defined.

(** [delete] of a table of capacity 4 with two present buckets. *)
Lemma delete_releases_each_present_bucket_once_witness :
  let h : hashmap Z Z := add_all (new_hashmap 4) [(1, 10); (2, 20); (5, 50)] in
  length (buckets h) = Z.to_nat (capacity h) /\
  delete_key_type_to_value_type_hashmap h =
  [call_delete_entry_vector
     [{| key := 1; value := 10 |}; {| key := 5; value := 50 |}];
   call_delete_entry_vector [{| key := 2; value := 20 |}];
   call_kfree_buckets; call_kfree_hashmap].
Proof.
  intros h. split; [reflexivity|].
  exact (delete_releases_each_present_bucket_once h eq_refl).
Defined.

(** The slot of key 5 on the table of [live_example]. *)
Lemma bucket_index_stays_inside_the_array_witness :
  let h :=
    (add_key_type_to_value_type_hashmap
       (add_key_type_to_value_type_hashmap new_int_to_int_hashmap 1 10).1
       128 20).1 in
  live h /\
  (bucket_index (capacity h) (key_type_hash 5%Z) < length (buckets h))%nat.
Proof.
  split; [exact live_example|].
  apply (bucket_index_stays_inside_the_array _ 5 live_example).
Defined.

(** Bucket 1 of the table of [live_example]. *)
Lemma present_bucket_is_never_empty_witness :
  let h :=
    (add_key_type_to_value_type_hashmap
       (add_key_type_to_value_type_hashmap new_int_to_int_hashmap 1 10).1
       128 20).1 in
  let vec := [{| key := 1; value := 10 |}; {| key := 128; value := 20 |}] in
  live h /\
  buckets h !! 1%nat = Some (Some vec) /\
  (0 < vector_size vec)%nat.
Proof.
  split; [exact live_example|]. split; [reflexivity|].
  exact (present_bucket_is_never_empty _ 1%nat _ live_example eq_refl).
Defined.

(** A second [add] of key 1 on the table of [live_example]. *)
Lemma add_never_overwrites_witness :
  let h :=
    (add_key_type_to_value_type_hashmap
       (add_key_type_to_value_type_hashmap new_int_to_int_hashmap 1 10).1
       128 20).1 in
  let h' := (add_key_type_to_value_type_hashmap h 1 99).1 in
  CapabilityLaws Z Z /\ HashRespectsEquals Z Z /\ live h /\
  get_key_type_to_value_type_hashmap h' 1 0 = (true, 10, h') /\
  get_key_type_to_value_type_hashmap h' 7 0 = (false, 0, h').
Proof.
  split; [exact int_by_value_laws|]. split; [exact int_by_value_respects|].
  split; [exact live_example|]. split.
  - exact (add_never_overwrites (Laws := int_by_value_laws)
             (Respects := int_by_value_respects) _ 1 99 1 0 live_example).
  - exact (add_never_overwrites (Laws := int_by_value_laws)
             (Respects := int_by_value_respects) _ 1 99 7 0 live_example).
Defined.

(** [get(1)] after [add] of the keys 2, 1 and 1. *)
Lemma get_searches_the_history_witness :
  let h := add_all (new_hashmap 127) [(2, 20); (1, 10); (1, 30)] in
  CapabilityLaws Z Z /\ HashRespectsEquals Z Z /\ 0 < 127 /\
  get_key_type_to_value_type_hashmap h 1 0 = (true, 10, h).
Proof.
  split; [exact int_by_value_laws|]. split; [exact int_by_value_respects|].
  split; [reflexivity|].
  exact (get_searches_the_history (Laws := int_by_value_laws)
           (Respects := int_by_value_respects) 127
           [(2, 20); (1, 10); (1, 30)] 1 0 eq_refl).
Defined.

(** [get(5)] misses on the table of [live_example]; the entry of key 128
    does not match. *)
Lemma not_found_means_no_entry_matches_witness :
  let h :=
    (add_key_type_to_value_type_hashmap
       (add_key_type_to_value_type_hashmap new_int_to_int_hashmap 1 10).1
       128 20).1 in
  let vec := [{| key := 1; value := 10 |}; {| key := 128; value := 20 |}] in
  CapabilityLaws Z Z /\ HashRespectsEquals Z Z /\ live h /\
  (get_key_type_to_value_type_hashmap h 5 0).1.1 = false /\
  buckets h !! 1%nat = Some (Some vec) /\
  {| key := 128; value := 20 |} ∈ vec /\
  key_type_equals 5 128 = false.
Proof.
  split; [exact int_by_value_laws|]. split; [exact int_by_value_respects|].
  split; [exact live_example|]. split; [reflexivity|].
  split; [reflexivity|]. split; [right; left|].
  apply (not_found_means_no_entry_matches (Laws := int_by_value_laws)
           (Respects := int_by_value_respects) _ 5 0 1%nat
           [{| key := 1; value := 10 |}; {| key := 128; value := 20 |}]
           {| key := 128; value := 20 |} live_example).
  - reflexivity.
  - reflexivity.
  - right; left.
Defined.

(** The keys -1 and 5. *)
Lemma int_hash_separates_keys_witness :
  - 2 ^ 31 <= -1 < 2 ^ 31 /\
  - 2 ^ 31 <= 5 < 2 ^ 31 /\
  int_hash (-1) = 4294967295 /\
  (int_hash (-1) = int_hash 5 <-> int_equals (-1) 5 = true).
Proof.
  assert (H1 : - 2 ^ 31 <= -1 < 2 ^ 31) by (split; [discriminate|reflexivity]).
  assert (H2 : - 2 ^ 31 <= 5 < 2 ^ 31) by (split; [discriminate|reflexivity]).
  split; [exact H1|]. split; [exact H2|]. split; [reflexivity|].
  exact (proj2 (int_hash_separates_keys (-1) 5 H1 H2)).
Defined.

(** Three calls, two of them into bucket 1, on a table of capacity 4. *)
Lemma vectors_created_are_vectors_deleted_witness :
  let l := [(1, 10); (2, 20); (5, 50)] in
  0 < 4 < UINT32_MODULUS /\
  4 * Z.of_nat (length l) <= 3 * 4 + 4 /\
  calls is_new_vector_call (add_all_traced (new_hashmap 4) l).2 =
  calls is_delete_vector_call
    (delete_key_type_to_value_type_hashmap
       (add_all_traced (new_hashmap 4) l).1).
Proof.
  intros l.
  assert (Hc : 0 < 4 < UINT32_MODULUS) by (split; reflexivity).
  assert (Hn : 4 * Z.of_nat (length l) <= 3 * 4 + 4) by (simpl; lia).
  split; [exact Hc|]. split; [exact Hn|].
  pose proof (vectors_created_are_vectors_deleted 4 l Hc Hn) as Hthm.
  destruct (add_all_traced (new_hashmap 4) l) as [h t].
  exact (proj1 Hthm).
Defined.
